(** * Selection of the n-th smallest element: quickselect and bounded max-heap

    A shallow embedding of [src/algorithm/sort_n_smallest.cpp] and the
    verification of its two selection routines,
    [sort_nth_smallest_quickselect] and [sort_nth_smallest_heap].

    Modelling conventions.
    - A [vector<int>] is a [list Z]; an [int] index is a [Z], so that the
      value [low - 1 = -1] the partition step starts from is representable.
      The elements are only compared and copied, never computed with.
    - An [int] has 32 bits.  Where the source narrows [nums.size()] to an
      [int], and where it computes [2 * parent + 1], which leaves the range
      of [int] on a heap of more than [2 ^ 30] positions, the model takes
      the two's complement value [to_int].  The other index computations
      stay within one position of the range they work on, for an [end]
      and a [high] below [INT_MAX] as the routines pass them, and are
      exact.
    - [arr[i]] outside [0, size) is undefined behaviour in C++: the model
      gets stuck with [OutOfBounds] there, so a theorem that gives an [Ok]
      result also shows that every access made was in range.
    - A counted [for] loop is an iteration over its index range.  A [while]
      loop takes a fuel argument that counts executions of its body; running
      out of it is the distinct outcome [OutOfFuel]. *)

From Stdlib Require Import ZArith Lia.
From stdpp Require Import base decidable option numbers list sorting.

Local Open Scope Z_scope.

(** ** Outcomes of a run *)

Inductive fault : Type :=
  | OutOfBounds
  | OutOfFuel.

Inductive outcome (A : Type) : Type :=
  | Ok (a : A)
  | Stuck (f : fault).

Arguments Ok {A} a.
Arguments Stuck {A} f.

Global Instance fault_eq_dec : EqDecision fault.
Proof. solve_decision. Defined.

Global Instance outcome_eq_dec {A} `{EqDecision A} : EqDecision (outcome A).
Proof. solve_decision. Defined.

Global Instance outcome_ret : MRet outcome := λ A a, Ok a.

Global Instance outcome_bind : MBind outcome := λ A B k m,
  match m with
  | Ok a => k a
  | Stuck f => Stuck f
  end.

Global Instance outcome_fmap : FMap outcome := λ A B g m,
  match m with
  | Ok a => Ok (g a)
  | Stuck f => Stuck f
  end.

(** ** The type [int] *)

Definition INT_MAX : Z := 2 ^ 31 - 1.

(** The value of a number as an [int] of 32 bits: what a conversion from
    [size_t] gives, and the two's complement result of an [int] operation
    that leaves the range. *)
Definition to_int (x : Z) : Z := (x + 2 ^ 31) `mod` 2 ^ 32 - 2 ^ 31.

(** ** Vectors of [int] indexed by [int] *)

Definition zlookup (arr : list Z) (i : Z) : option Z :=
  if decide (0 ≤ i) then arr !! Z.to_nat i else None.

(** [arr[i]] as an rvalue. *)
Definition vget (arr : list Z) (i : Z) : outcome Z :=
  match zlookup arr i with
  | Some v => Ok v
  | None => Stuck OutOfBounds
  end.

(** [arr[i] = v]. *)
Definition vset (arr : list Z) (i : Z) (v : Z) : outcome (list Z) :=
  if decide (0 ≤ i < Z.of_nat (length arr))
  then Ok (<[Z.to_nat i := v]> arr)
  else Stuck OutOfBounds.

(** ** Counted loops *)

(** [for (int j = lo; j < hi; j++) body], the body leaving [j] and [hi]
    alone: [count] is the number of indices still to visit. *)
Fixpoint for_up_from {St : Type} (count : nat) (j : Z)
    (body : St → Z → outcome St) (s : St) : outcome St :=
  match count with
  | O => Ok s
  | S count => s ← body s j; for_up_from count (j + 1) body s
  end.

Definition for_up {St : Type} (lo hi : Z)
    (body : St → Z → outcome St) (s : St) : outcome St :=
  for_up_from (Z.to_nat (hi - lo)) lo body s.

(** [for (int i = hi; i >= lo; i--) body]. *)
Fixpoint for_down_from {St : Type} (count : nat) (i : Z)
    (body : St → Z → outcome St) (s : St) : outcome St :=
  match count with
  | O => Ok s
  | S count => s ← body s i; for_down_from count (i - 1) body s
  end.

Definition for_down {St : Type} (hi lo : Z)
    (body : St → Z → outcome St) (s : St) : outcome St :=
  for_down_from (Z.to_nat (hi - lo + 1)) hi body s.

(** ** Quickselect *)

(** The body of the loop of the [partition] lambda, on the state
    [(arr, i)]. *)
Definition partition_body (pivot : Z) (st : list Z * Z) (j : Z)
    : outcome (list Z * Z) :=
  let '(arr, i) := st in
  aj ← vget arr j;
  if decide (aj ≤ pivot) then
    let i := i + 1 in
    temp ← vget arr i;
    aj ← vget arr j;
    arr ← vset arr i aj;
    arr ← vset arr j temp;
    Ok (arr, i)
  else Ok (arr, i).

(** The [partition] lambda: the mutated vector and the returned index. *)
Definition partition (arr : list Z) (low high : Z) : outcome (list Z * Z) :=
  pivot ← vget arr high;
  let i := low - 1 in
  '(arr, i) ← for_up low high (partition_body pivot) (arr, i);
  temp ← vget arr (i + 1);
  ah ← vget arr high;
  arr ← vset arr (i + 1) ah;
  arr ← vset arr high temp;
  Ok (arr, i + 1).

(** The [quickSelect] lambda: the returned value and the vector as the
    loop leaves it.  [fuel] bounds the number of [partition] calls. *)
Fixpoint quickSelect (fuel : nat) (arr : list Z) (low high k : Z)
    : outcome (Z * list Z) :=
  if decide (low ≤ high) then
    match fuel with
    | O => Stuck OutOfFuel
    | S fuel =>
        '(arr, pivotIndex) ← partition arr low high;
        if decide (pivotIndex = k - 1) then
          v ← vget arr pivotIndex; Ok (v, arr)
        else if decide (pivotIndex > k - 1) then
          quickSelect fuel arr low (pivotIndex - 1) k
        else
          quickSelect fuel arr (pivotIndex + 1) high k
    end
  else Ok (-1, arr).

(** The guard [n <= 0 || n > nums.size()]: the second comparison is made
    on unsigned numbers in C++, and is only reached with [n > 0]. *)
Definition invalid_rank (nums : list Z) (n : Z) : Prop :=
  n ≤ 0 ∨ n > Z.of_nat (length nums).

Global Instance invalid_rank_dec nums n : Decision (invalid_rank nums n).
Proof. unfold invalid_rank. apply _. Defined.

(** [sort_nth_smallest_quickselect], keeping the working copy [nums] next
    to the returned value.  [nums.size() - 1] is passed for the parameter
    [int high]. *)
Definition sort_nth_smallest_quickselect_run (fuel : nat)
    (nums : list Z) (n : Z) : outcome (Z * list Z) :=
  if decide (invalid_rank nums n) then Ok (-1, nums)
  else quickSelect fuel nums 0 (to_int (Z.of_nat (length nums) - 1)) n.

Definition sort_nth_smallest_quickselect (nums : list Z) (n : Z) : outcome Z :=
  fst <$> sort_nth_smallest_quickselect_run (length nums) nums n.

(** ** Bounded max-heap selection *)

(** The loop of the [heapifyDown] lambda.  [fuel] bounds the number of
    executions of the loop body. *)
Fixpoint heapifyDown_while (fuel : nat) (arr : list Z)
    (parent child end_ : Z) : outcome (list Z) :=
  if decide (child ≤ end_) then
    match fuel with
    | O => Stuck OutOfFuel
    | S fuel =>
        right_larger ←
          (if decide (child + 1 ≤ end_) then
             a1 ← vget arr (child + 1);
             a0 ← vget arr child;
             Ok (bool_decide (a1 > a0))
           else Ok false);
        let child := if right_larger : bool then child + 1 else child in
        ap ← vget arr parent;
        ac ← vget arr child;
        if decide (ap >= ac) then Ok arr
        else
          temp ← vget arr parent;
          ac ← vget arr child;
          arr ← vset arr parent ac;
          arr ← vset arr child temp;
          let parent := child in
          let child := to_int (2 * parent + 1) in
          heapifyDown_while fuel arr parent child end_
    end
  else Ok arr.

Definition heapifyDown (fuel : nat) (arr : list Z) (start end_ : Z)
    : outcome (list Z) :=
  let parent := start in
  let child := to_int (2 * parent + 1) in
  heapifyDown_while fuel arr parent child end_.

(** The body of the scan of the positions [n .. size - 1]. *)
Definition heap_scan_body (fuel : nat) (n : Z) (nums : list Z) (i : Z)
    : outcome (list Z) :=
  ai ← vget nums i;
  a0 ← vget nums 0;
  if decide (ai < a0) then
    ai ← vget nums i;
    nums ← vset nums 0 ai;
    heapifyDown fuel nums 0 (n - 1)
  else Ok nums.

(** [sort_nth_smallest_heap], keeping the working copy [nums] next to the
    returned value.  [(n - 2) / 2] is the truncating division of C++, and
    [int size = nums.size()] narrows the size. *)
Definition sort_nth_smallest_heap_run (fuel : nat)
    (nums : list Z) (n : Z) : outcome (Z * list Z) :=
  if decide (invalid_rank nums n) then Ok (-1, nums)
  else
    let size := to_int (Z.of_nat (length nums)) in
    nums ← for_down ((n - 2) `quot` 2) 0
              (λ nums i, heapifyDown fuel nums i (n - 1)) nums;
    nums ← for_up n size (heap_scan_body fuel n) nums;
    root ← vget nums 0;
    Ok (root, nums).

Definition sort_nth_smallest_heap (nums : list Z) (n : Z) : outcome Z :=
  fst <$> sort_nth_smallest_heap_run (length nums) nums n.

(** [sort_nth_smallest]: the facade, which takes the quickselect. *)
Definition sort_nth_smallest (nums : list Z) (n : Z) : outcome Z :=
  sort_nth_smallest_quickselect nums n.

(** ** The reference: the ascending sort of the input *)

Definition sorted (S : list Z) : list Z := merge_sort Z.le S.

(** The [n] smallest values of [S], as a list. *)
Definition n_smallest (n : Z) (S : list Z) : list Z :=
  take (Z.to_nat n) (sorted S).

(** The positions [low .. high] of a vector. *)
Definition segment (arr : list Z) (low high : Z) : list Z :=
  take (Z.to_nat (high - low + 1)) (drop (Z.to_nat low) arr).

(** ** The scenarios of the test function *)

Definition test1 : list Z := [3; 1; 4; 1; 5; 9; 2; 6].
Definition test2 : list Z := [5; 2; 2; 1; 1; 3; 3; 3].
Definition test3 : list Z := [1; 2; 3; 4; 5; 6; 7; 8].
Definition test4 : list Z := [8; 7; 6; 5; 4; 3; 2; 1].

Definition both_return (S : list Z) (n expected : Z) : bool :=
  bool_decide (sort_nth_smallest_quickselect S n = Ok expected
               ∧ sort_nth_smallest_heap S n = Ok expected).

(** A vector of [N + 1] values, a 1 followed by zeros, and the one of
    [2 ^ 31 + 1] values, whose size does not fit an [int]. *)
Definition long_input (N : nat) : list Z := 1 :: replicate N 0.

Abbreviation long_vector := (long_input (Z.to_nat (2 ^ 31))).

(** A vector of [N + 1] values, zeros followed by a 1, and the one of
    [2 ^ 30 + 2] values, whose last position is the child of position
    [2 ^ 29] in the heap and has its own children beyond [int]. *)
Definition deep_input (N : nat) : list Z := replicate N 0 ++ [1].

Abbreviation deep_vector := (deep_input (Z.to_nat (2 ^ 30 + 1))).

(** ** Specification predicates and loop invariants *)

(** The vector after [temp = arr[x]; arr[x] = arr[y]; arr[y] = temp]. *)
Definition swapped (arr : list Z) (x y a b : Z) : list Z :=
  <[Z.to_nat y:=a]> (<[Z.to_nat x:=b]> arr).

(** *** Partition *)

(** The state [(arr, i)] before the iteration at [j]. *)
Record partition_inv (arr0 : list Z) (low high pivot : Z)
    (j : Z) (st : list Z * Z) : Prop := {
  pi_length : length st.1 = length arr0;
  pi_perm : st.1 ≡ₚ arr0;
  pi_frame : ∀ x, ¬ (low ≤ x < high) → zlookup st.1 x = zlookup arr0 x;
  pi_range : low - 1 ≤ st.2 < j;
  pi_small : ∀ x v, low ≤ x ≤ st.2 → zlookup st.1 x = Some v → v ≤ pivot;
  pi_large : ∀ x v, st.2 < x < j → zlookup st.1 x = Some v → pivot < v;
}.

(** What [partition] leaves: the returned index [p] lies in the segment
    and holds the pivot, what is left of it in the segment is [<=] the
    pivot, what is right of it is [>], and the vector is the old one with
    the segment permuted. *)
Record partition_post (arr0 : list Z) (low high pivot : Z)
    (arr : list Z) (p : Z) : Prop := {
  pp_length : length arr = length arr0;
  pp_perm : arr ≡ₚ arr0;
  pp_frame : ∀ x, ¬ (low ≤ x ≤ high) → zlookup arr x = zlookup arr0 x;
  pp_range : low ≤ p ≤ high;
  pp_pivot : zlookup arr p = Some pivot;
  pp_small : ∀ x v, low ≤ x < p → zlookup arr x = Some v → v ≤ pivot;
  pp_large : ∀ x v, p < x ≤ high → zlookup arr x = Some v → pivot < v;
}.

(** *** Selection *)

(** The postcondition both routines meet: the first positions [P] of the
    working copy are a lower part of [S], and [v] is the maximum of [P]. *)
Definition selects (S P : list Z) (v : Z) : Prop :=
  ∃ R, P ++ R ≡ₚ S
       ∧ v ∈ P
       ∧ (∀ y, y ∈ P → y ≤ v)
       ∧ (∀ x, x ∈ R → v ≤ x).

(** The active range holds position [k - 1]; what is left of it is
    [<=] everything from [low] on, and what is right of it is [>=]
    everything up to [high]. *)
Record qs_inv (S : list Z) (k : Z) (arr : list Z) (low high : Z) : Prop := {
  qi_length : length arr = length S;
  qi_perm : arr ≡ₚ S;
  qi_low : 0 ≤ low;
  qi_high : high < Z.of_nat (length S);
  qi_k : low ≤ k - 1 ≤ high;
  qi_left : ∀ x y vx vy, x < low → low ≤ y →
    zlookup arr x = Some vx → zlookup arr y = Some vy → vx ≤ vy;
  qi_right : ∀ x y vx vy, x ≤ high → high < y →
    zlookup arr x = Some vx → zlookup arr y = Some vy → vx ≤ vy;
}.

(** The vector as the quickselect loop returns it, with the value [v]. *)
Record qs_post (S : list Z) (k : Z) (v : Z) (arr : list Z) : Prop := {
  qp_length : length arr = length S;
  qp_perm : arr ≡ₚ S;
  qp_value : zlookup arr (k - 1) = Some v;
  qp_left : ∀ x vx, x < k - 1 → zlookup arr x = Some vx → vx ≤ v;
  qp_right : ∀ y vy, k - 1 < y → zlookup arr y = Some vy → v ≤ vy;
}.

(** *** Max-heap *)

Definition is_child (p c : Z) : Prop := c = 2 * p + 1 ∨ c = 2 * p + 2.

(** The value at [p] is [>=] the values at its children up to [end_]. *)
Definition heap_at (arr : list Z) (end_ p : Z) : Prop :=
  ∀ c vp vc, is_child p c → c ≤ end_ →
    zlookup arr p = Some vp → zlookup arr c = Some vc → vc ≤ vp.

(** The positions [start .. end_] are heap ordered. *)
Definition heap_from (arr : list Z) (start end_ : Z) : Prop :=
  ∀ p, start ≤ p → heap_at arr end_ p.

(** The heap order holds from [start] on except at [parent], whose
    children are still below its own parent. *)
Record sift_inv (start end_ : Z) (arr : list Z) (parent : Z) : Prop := {
  si_others : ∀ p, start ≤ p → p ≠ parent → heap_at arr end_ p;
  si_grand : ∀ g c vg vc, start ≤ g → is_child g parent →
    is_child parent c → c ≤ end_ →
    zlookup arr g = Some vg → zlookup arr c = Some vc → vc ≤ vg;
}.

(** What [heapifyDown] leaves of [arr0] when started at [parent]. *)
Record sift_post (start end_ : Z) (arr0 : list Z) (parent : Z)
    (arr : list Z) : Prop := {
  sp_length : length arr = length arr0;
  sp_perm : arr ≡ₚ arr0;
  sp_frame : ∀ x, ¬ (parent ≤ x ≤ end_) → zlookup arr x = zlookup arr0 x;
  sp_heap : heap_from arr start end_;
}.

(** Step 1, before the iteration at [i]: the positions after [i] are
    heap ordered. *)
Record build_inv (S : list Z) (n : Z) (i : Z) (arr : list Z) : Prop := {
  bi_length : length arr = length S;
  bi_perm : arr ≡ₚ S;
  bi_frame : ∀ x, n ≤ x → zlookup arr x = zlookup S x;
  bi_heap : heap_from arr (i + 1) (n - 1);
}.

(** Step 2, before the iteration at [i]: the heap holds a lower part of
    the first [i] values of the input. *)
Record scan_inv (S : list Z) (n : Z) (i : Z) (arr : list Z) : Prop := {
  sci_length : length arr = length S;
  sci_frame : ∀ x, n ≤ x → zlookup arr x = zlookup S x;
  sci_heap : heap_from arr 0 (n - 1);
  sci_lower : ∃ R, take (Z.to_nat n) arr ++ R ≡ₚ take (Z.to_nat i) S
                   ∧ ∀ y x, y ∈ take (Z.to_nat n) arr → x ∈ R → y ≤ x;
}.

(** *** Ranks *)

(** The number of values of [l] that are [<= v], and that are [< v]. *)
Definition count_le (v : Z) (l : list Z) : nat :=
  length (filter (λ x, x ≤ v) l).

Definition count_lt (v : Z) (l : list Z) : nat :=
  length (filter (λ x, x < v) l).

(** * Verification *)

(** ** Running the monad *)

Lemma bind_Ok {A B} (k : A → outcome B) (a : A) : Ok a ≫= k = k a.
Proof. reflexivity. Qed.

Lemma fmap_Ok {A B} (g : A → B) (a : A) : g <$> Ok a = Ok (g a).
Proof. reflexivity. Qed.

(** ** Values of type [int] *)

Lemma to_int_small x : - 2 ^ 31 ≤ x ≤ INT_MAX → to_int x = x.
Proof.
  unfold INT_MAX, to_int. intros Hx. rewrite Z.mod_small by lia. lia.
Qed.

Lemma to_int_le x : 0 ≤ x → to_int x ≤ x.
Proof.
  unfold to_int. intros Hx. pose proof (Z.mod_le (x + 2 ^ 31) (2 ^ 32)). lia.
Qed.

(** ** Reading and writing vectors *)

Section vector_facts.
Implicit Types (arr : list Z) (i j v : Z).

Lemma zlookup_Some arr i v :
  zlookup arr i = Some v → 0 ≤ i < Z.of_nat (length arr).
Proof.
  unfold zlookup. case_decide; [|done].
  intros Hl%lookup_lt_Some. lia.
Qed.

Lemma zlookup_is_Some arr i :
  0 ≤ i < Z.of_nat (length arr) → ∃ v, zlookup arr i = Some v.
Proof.
  intros Hi. unfold zlookup. rewrite decide_True by lia.
  apply lookup_lt_is_Some_2. lia.
Qed.

Lemma zlookup_nat arr (x : nat) : zlookup arr (Z.of_nat x) = arr !! x.
Proof. unfold zlookup. rewrite decide_True by lia. by rewrite Nat2Z.id. Qed.

Lemma zlookup_elem_of arr i v : zlookup arr i = Some v → v ∈ arr.
Proof.
  unfold zlookup. case_decide; [|done]. apply list_elem_of_lookup_2.
Qed.

Lemma elem_of_zlookup arr v : v ∈ arr → ∃ i, zlookup arr i = Some v.
Proof.
  intros [x Hx]%list_elem_of_lookup_1. exists (Z.of_nat x).
  by rewrite zlookup_nat.
Qed.

Lemma vget_Ok arr i v : zlookup arr i = Some v → vget arr i = Ok v.
Proof. unfold vget. by intros ->. Qed.

Lemma vset_Ok arr i v :
  0 ≤ i < Z.of_nat (length arr) → vset arr i v = Ok (<[Z.to_nat i:=v]> arr).
Proof. intros. unfold vset. by rewrite decide_True. Qed.

Lemma zlookup_insert arr i j v :
  0 ≤ i < Z.of_nat (length arr) →
  zlookup (<[Z.to_nat i:=v]> arr) j
  = if decide (i = j) then Some v else zlookup arr j.
Proof.
  intros Hi. unfold zlookup. destruct (decide (i = j)) as [->|Hne].
  - rewrite decide_True by lia. apply list_lookup_insert_eq. lia.
  - case_decide; [|done]. apply list_lookup_insert_ne. lia.
Qed.

Lemma swap_run {B} arr x y a b (k : list Z → outcome B) :
  zlookup arr x = Some a →
  zlookup arr y = Some b →
  vset arr x b ≫= (λ arr1, vset arr1 y a ≫= k) = k (swapped arr x y a b).
Proof.
  intros Hx%zlookup_Some Hy%zlookup_Some.
  rewrite vset_Ok, bind_Ok by done.
  by rewrite vset_Ok, bind_Ok by (rewrite length_insert; done).
Qed.

Lemma length_swapped arr x y a b :
  length (swapped arr x y a b) = length arr.
Proof. unfold swapped. by rewrite !length_insert. Qed.

Lemma zlookup_swapped arr x y a b z :
  zlookup arr x = Some a →
  zlookup arr y = Some b →
  zlookup (swapped arr x y a b) z
  = if decide (y = z) then Some a
    else if decide (x = z) then Some b else zlookup arr z.
Proof.
  intros Hx%zlookup_Some Hy%zlookup_Some. unfold swapped.
  rewrite zlookup_insert by (rewrite length_insert; done).
  case_decide; [done|]. by rewrite zlookup_insert.
Qed.

Lemma swapped_Permutation arr x y a b :
  zlookup arr x = Some a →
  zlookup arr y = Some b →
  swapped arr x y a b ≡ₚ arr.
Proof.
  unfold zlookup, swapped. repeat case_decide; try done.
  intros Hx Hy. by apply Permutation_insert_swap.
Qed.
End vector_facts.

(** ** Invariant rules of the counted loops *)

Lemma for_up_inv {St} (Inv : Z → St → Prop) lo hi body (s : St) :
  lo ≤ hi →
  Inv lo s →
  (∀ j s, lo ≤ j < hi → Inv j s → ∃ s', body s j = Ok s' ∧ Inv (j + 1) s') →
  ∃ s', for_up lo hi body s = Ok s' ∧ Inv hi s'.
Proof.
  intros Hle H0 Hstep. unfold for_up.
  remember (Z.to_nat (hi - lo)) as count eqn:Hc.
  revert lo s Hle H0 Hstep Hc. induction count as [|count IH]; intros.
  - assert (lo = hi) as -> by lia. by exists s.
  - destruct (Hstep lo s) as (s1 & Hb & H1); [lia|done|].
    cbn [for_up_from]. rewrite Hb, bind_Ok.
    apply IH; [lia|done| |lia].
    intros j s2 Hj. apply Hstep. lia.
Qed.

Lemma for_down_inv {St} (Inv : Z → St → Prop) hi lo body (s : St) :
  lo - 1 ≤ hi →
  Inv hi s →
  (∀ i s, lo ≤ i ≤ hi → Inv i s → ∃ s', body s i = Ok s' ∧ Inv (i - 1) s') →
  ∃ s', for_down hi lo body s = Ok s' ∧ Inv (lo - 1) s'.
Proof.
  intros Hle H0 Hstep. unfold for_down.
  remember (Z.to_nat (hi - lo + 1)) as count eqn:Hc.
  revert hi s Hle H0 Hstep Hc. induction count as [|count IH]; intros.
  - assert (hi = lo - 1) as -> by lia. by exists s.
  - destruct (Hstep hi s) as (s1 & Hb & H1); [lia|done|].
    cbn [for_down_from]. rewrite Hb, bind_Ok.
    apply IH; [lia|done| |lia].
    intros j s2 Hj. apply Hstep. lia.
Qed.

(** ** The partition step *)

Section partition_spec.
Variables (arr0 : list Z) (low high pivot : Z).
Hypothesis Hlow : 0 ≤ low.
Hypothesis Hlh : low ≤ high.
Hypothesis Hhigh : high < Z.of_nat (length arr0).
Hypothesis Hpivot : zlookup arr0 high = Some pivot.

Lemma partition_inv_init :
  partition_inv arr0 low high pivot low (arr0, low - 1).
Proof. split; simpl; intros; try done; lia. Qed.

Lemma partition_body_inv j st :
  low ≤ j < high →
  partition_inv arr0 low high pivot j st →
  ∃ st', partition_body pivot st j = Ok st'
         ∧ partition_inv arr0 low high pivot (j + 1) st'.
Proof.
  intros Hj [Hlen Hperm Hframe Hrange Hsmall Hlarge].
  destruct st as [arr i]; simpl in *. unfold partition_body.
  destruct (zlookup_is_Some arr j) as [aj Haj]; [lia|].
  rewrite (vget_Ok _ _ _ Haj), bind_Ok.
  destruct (decide (aj ≤ pivot)) as [Hle|Hgt].
  - destruct (zlookup_is_Some arr (i + 1)) as [t Ht]; [lia|].
    cbv zeta.
    rewrite (vget_Ok _ _ _ Ht), !bind_Ok, (swap_run _ _ _ _ _ _ Ht Haj).
    eexists; split; [done|]. split; simpl.
    + by rewrite length_swapped.
    + by rewrite swapped_Permutation.
    + intros x Hx. rewrite zlookup_swapped by done.
      rewrite !decide_False by lia. by apply Hframe.
    + lia.
    + intros x v Hx. rewrite zlookup_swapped by done.
      destruct (decide (j = x)) as [<-|?].
      { assert (i + 1 = j) as Hij by lia. rewrite Hij in Ht.
        intros. by simplify_eq. }
      destruct (decide (i + 1 = x)) as [<-|?]; [intros; by simplify_eq|].
      apply Hsmall. lia.
    + intros x v Hx. rewrite zlookup_swapped by done.
      repeat case_decide; intros; simplify_eq; try lia.
      * eapply (Hlarge (i + 1)); [lia|done].
      * eapply Hlarge; [|done]. lia.
  - eexists; split; [done|]. split; simpl; try done; try lia.
    intros x v Hx Hv. destruct (decide (x = j)) as [->|].
    + simplify_eq. lia.
    + eapply Hlarge; [|done]. lia.
Qed.

Lemma partition_correct :
  ∃ arr p, partition arr0 low high = Ok (arr, p)
           ∧ partition_post arr0 low high pivot arr p.
Proof.
  unfold partition. rewrite (vget_Ok _ _ _ Hpivot), bind_Ok. cbv zeta.
  destruct (for_up_inv (partition_inv arr0 low high pivot) low high
              (partition_body pivot)
              (arr0, low - 1)) as ([arr i] & -> & Hinv);
    [done|apply partition_inv_init|apply partition_body_inv|].
  destruct Hinv as [Hlen Hperm Hframe Hrange Hsmall Hlarge]; simpl in *.

  assert (zlookup arr high = Some pivot) as Hh.
  { rewrite Hframe by lia. done. }
  destruct (zlookup_is_Some arr (i + 1)) as [t Ht]; [lia|].
  rewrite (vget_Ok _ _ _ Ht), (vget_Ok _ _ _ Hh), !bind_Ok,
    (swap_run _ _ _ _ _ _ Ht Hh).
  eexists _, _; split; [done|]. split.
  - by rewrite length_swapped.
  - by rewrite swapped_Permutation.
  - intros x Hx. rewrite zlookup_swapped by done.
    rewrite !decide_False by lia. apply Hframe. lia.
  - lia.
  - rewrite zlookup_swapped by done.
    case_decide; [|by rewrite decide_True].
    by replace (i + 1) with high in Ht by done; simplify_eq.
  - intros x v Hx. rewrite zlookup_swapped by done.
    rewrite !decide_False by lia. apply Hsmall. lia.
  - intros x v Hx. rewrite zlookup_swapped by done.
    repeat case_decide; intros; simplify_eq; try lia.
    + eapply (Hlarge (i + 1)); [lia|done].
    + eapply Hlarge; [|done]. lia.
Qed.
End partition_spec.

(** ** The reference order statistics *)

Section reference.
Implicit Types (S P R : list Z) (v : Z).

Lemma sorted_Permutation S : sorted S ≡ₚ S.
Proof. apply merge_sort_Permutation. Qed.

Lemma sorted_StronglySorted S : StronglySorted Z.le (sorted S).
Proof. apply StronglySorted_merge_sort; apply _. Qed.

Lemma length_sorted S : length (sorted S) = length S.
Proof. by rewrite sorted_Permutation. Qed.

Lemma sorted_unique S l : StronglySorted Z.le l → l ≡ₚ S → sorted S = l.
Proof.
  intros Hl Hp. apply (StronglySorted_unique Z.le).
  - apply sorted_StronglySorted.
  - done.
  - by rewrite sorted_Permutation.
Qed.

(** A split of [S] into a lower and an upper part sorts part by part. *)
Lemma sorted_app S P R :
  P ++ R ≡ₚ S →
  (∀ y x, y ∈ P → x ∈ R → y ≤ x) →
  sorted S = sorted P ++ sorted R.
Proof.
  intros Hp Hle. apply sorted_unique.
  - apply StronglySorted_app. split_and!; try apply sorted_StronglySorted.
    intros y x. rewrite !sorted_Permutation. apply Hle.
  - by rewrite !sorted_Permutation.
Qed.

(** The maximum of a list is the last element of its sort. *)
Lemma sorted_last_max P v :
  v ∈ P →
  (∀ y, y ∈ P → y ≤ v) →
  sorted P !! (length P - 1)%nat = Some v.
Proof.
  intros Hv Hmax.
  pose proof (sorted_StronglySorted P) as Hs.
  pose proof (length_sorted P) as Hlen.
  destruct (sorted P) as [|a l] eqn:HP using rev_ind.
  { destruct P; [by apply elem_of_nil in Hv|done]. }
  clear IHl. rewrite length_app in Hlen; simpl in Hlen.
  rewrite lookup_app_r by lia.
  replace (length P - 1 - length l)%nat with 0%nat by lia. simpl.
  apply StronglySorted_app in Hs as (Hle & _ & _).
  assert (a ∈ P) as Ha.
  { rewrite <-sorted_Permutation, HP, elem_of_app, list_elem_of_singleton.
    by right. }
  assert (v ∈ l ++ [a]) as Hvl.
  { by rewrite <-HP, sorted_Permutation. }
  f_equal. apply Z.le_antisymm; [by apply Hmax|].
  apply elem_of_app in Hvl as [Hvl|Hvl%list_elem_of_singleton].
  - apply Hle; [done|]. by apply list_elem_of_singleton.
  - by subst.
Qed.

Lemma selects_n_smallest S P v :
  selects S P v →
  P ≡ₚ n_smallest (Z.of_nat (length P)) S
  ∧ sorted S !! (length P - 1)%nat = Some v.
Proof.
  intros (R & Hp & Hv & Hmax & Hmin).
  assert (sorted S = sorted P ++ sorted R) as HS.
  { apply sorted_app; [done|]. intros y x Hy Hx.
    transitivity v; auto. }
  unfold n_smallest. rewrite HS, Nat2Z.id. split.
  - rewrite take_app_length' by (by rewrite length_sorted).
    by rewrite sorted_Permutation.
  - assert (length P ≠ 0%nat) by (destruct P; [by apply elem_of_nil in Hv|done]).
    rewrite lookup_app_l by (rewrite length_sorted; lia).
    by apply sorted_last_max.
Qed.
End reference.

(** ** Segments of a vector *)

Section segments.
Implicit Types (arr : list Z) (low high : Z).

Lemma elem_of_segment arr low high v :
  0 ≤ low →
  v ∈ segment arr low high ↔ ∃ x, low ≤ x ≤ high ∧ zlookup arr x = Some v.
Proof.
  intros Hlow. unfold segment. rewrite elem_of_take. split.
  - intros (i & Hi & Hlt). rewrite lookup_drop in Hi.
    exists (Z.of_nat (Z.to_nat low + i)). split; [lia|].
    by rewrite zlookup_nat.
  - intros (x & Hx & Hv). exists (Z.to_nat (x - low)).
    split; [|lia]. rewrite lookup_drop. unfold zlookup in Hv.
    rewrite decide_True in Hv by lia.
    by replace (Z.to_nat low + Z.to_nat (x - low))%nat
      with (Z.to_nat x) by lia.
Qed.

Lemma segment_split arr low high :
  0 ≤ low → low ≤ high + 1 →
  arr = take (Z.to_nat low) arr ++ segment arr low high
        ++ drop (Z.to_nat (high + 1)) arr.
Proof.
  intros. unfold segment.
  replace (Z.to_nat (high + 1))
    with (Z.to_nat low + Z.to_nat (high - low + 1))%nat by lia.
  by rewrite <-drop_drop, !take_drop.
Qed.

Lemma segment_prefix arr n : segment arr 0 (n - 1) = take (Z.to_nat n) arr.
Proof. unfold segment. simpl. f_equal. lia. Qed.

(** A vector that is a permutation of another and agrees with it outside
    a segment has a permutation of its segment there. *)
Lemma segment_Permutation arr arr' low high :
  0 ≤ low → low ≤ high + 1 →
  length arr' = length arr →
  arr' ≡ₚ arr →
  (∀ x, ¬ (low ≤ x ≤ high) → zlookup arr' x = zlookup arr x) →
  segment arr' low high ≡ₚ segment arr low high
  ∧ drop (Z.to_nat (high + 1)) arr' = drop (Z.to_nat (high + 1)) arr.
Proof.
  intros Hlow Hlh Hlen Hperm Hframe.
  assert (take (Z.to_nat low) arr' = take (Z.to_nat low) arr) as Htake.
  { apply list_eq. intros i. rewrite !lookup_take.
    case_decide; [|done]. rewrite <-!zlookup_nat. apply Hframe. lia. }
  assert (drop (Z.to_nat (high + 1)) arr'
          = drop (Z.to_nat (high + 1)) arr) as Hdrop.
  { apply list_eq. intros i. rewrite !lookup_drop.
    rewrite <-!zlookup_nat. apply Hframe. lia. }
  split; [|done].
  rewrite (segment_split arr low high), (segment_split arr' low high)
    in Hperm by done.
  rewrite Htake, Hdrop in Hperm.
  apply (inj (app _)) in Hperm. by apply (inj (λ l, l ++ _)) in Hperm.
Qed.
End segments.

(** ** The quickselect loop *)

(** Where the value at a position came from, and how it compares with the
    pivot, after a partition step on [low .. high]. *)
Lemma partition_post_origin arr0 low high pivot arr p x vx :
  0 ≤ low → low ≤ high →
  partition_post arr0 low high pivot arr p →
  zlookup arr x = Some vx →
  ∃ x', zlookup arr0 x' = Some vx
        ∧ (¬ (low ≤ x ≤ high) → x' = x)
        ∧ (low ≤ x ≤ high →
             low ≤ x' ≤ high
             ∧ (x < p → vx ≤ pivot) ∧ (x = p → vx = pivot)
             ∧ (p < x → pivot < vx)).
Proof.
  intros Hlow Hlh [Hlen Hperm Hframe Hrange Hpivot Hsmall Hlarge] Hx.
  destruct (decide (low ≤ x ≤ high)) as [Hin|Hout].
  - destruct (segment_Permutation arr0 arr low high) as [Hseg _];
      [lia..|done|done|done|].
    assert (vx ∈ segment arr0 low high) as Hmem.
    { rewrite <-Hseg. apply elem_of_segment; eauto. }
    apply elem_of_segment in Hmem as (x' & Hx' & Hv); [|done].
    exists x'. split; [done|]. split; [lia|]. intros _.
    split; [done|]. split_and!.
    + intros. eapply Hsmall; [|done]. lia.
    + intros ->. by simplify_eq.
    + intros. eapply Hlarge; [|done]. lia.
  - exists x. rewrite <-Hframe by done. split; [done|]. split; [done|lia].
Qed.

Section quickselect_spec.
Variables (S : list Z) (k : Z).

Lemma qs_inv_init : 1 ≤ k ≤ Z.of_nat (length S) →
  qs_inv S k S 0 (Z.of_nat (length S) - 1).
Proof.
  intros Hk. split; try done; try lia.
  - intros x y vx vy ? ? Hx%zlookup_Some. lia.
  - intros x y vx vy ? ? _ Hy%zlookup_Some. lia.
Qed.

Local Ltac order_by Hleft Hright Hx Hy :=
  first
    [ lia
    | eapply Hleft; [| |exact Hx|exact Hy]; lia
    | eapply Hright; [| |exact Hx|exact Hy]; lia ].

Lemma quickSelect_correct fuel arr low high :
  qs_inv S k arr low high →
  high - low + 1 ≤ Z.of_nat fuel →
  ∃ v arr', quickSelect fuel arr low high k = Ok (v, arr')
            ∧ qs_post S k v arr'.
Proof.
  revert arr low high. induction fuel as [|fuel IH];
    intros arr low high [Hlen Hperm Hlow Hhigh Hk Hleft Hright] Hfuel;
    [lia|].
  cbn [quickSelect]. rewrite decide_True by lia.
  destruct (zlookup_is_Some arr high) as [pivot Hpivot]; [lia|].
  destruct (partition_correct arr low high pivot)
    as (arr1 & p & -> & Hpost); [lia..|done|].
  rewrite bind_Ok.
  pose proof (λ x vx, partition_post_origin arr low high pivot arr1 p x vx
                        Hlow ltac:(lia) Hpost) as Horigin.
  destruct Hpost as [Hlen1 Hperm1 _ Hrange Hp _ _].
  destruct (decide (p = k - 1)) as [->|Hne].
  - rewrite (vget_Ok _ _ _ Hp), bind_Ok. eexists _, _; split; [done|].
    split; [congruence|by rewrite Hperm1|done|..].
    + intros x vx Hlt (x' & Hx' & Hout & Hin)%Horigin.
      destruct (decide (low ≤ x ≤ high)); [lia|].
      order_by Hleft Hright Hx' Hpivot.
    + intros y vy Hlt (y' & Hy' & Hout & Hin)%Horigin.
      destruct (decide (low ≤ y ≤ high)); [lia|].
      order_by Hleft Hright Hpivot Hy'.
  - destruct (decide (p > k - 1)).
    + apply IH; [|lia].
      split; [congruence|by rewrite Hperm1|lia..| |].
      * intros x y vx vy ? ? (x' & Hx' & Hxo & Hxi)%Horigin
          (y' & Hy' & Hyo & Hyi)%Horigin.
        destruct (decide (low ≤ x ≤ high)), (decide (low ≤ y ≤ high));
          order_by Hleft Hright Hx' Hy'.
      * intros x y vx vy ? ? (x' & Hx' & Hxo & Hxi)%Horigin
          (y' & Hy' & Hyo & Hyi)%Horigin.
        destruct (decide (low ≤ x ≤ high)), (decide (low ≤ y ≤ high));
          order_by Hleft Hright Hx' Hy'.
    + apply IH; [|lia].
      split; [congruence|by rewrite Hperm1|lia..| |].
      * intros x y vx vy ? ? (x' & Hx' & Hxo & Hxi)%Horigin
          (y' & Hy' & Hyo & Hyi)%Horigin.
        destruct (decide (low ≤ x ≤ high)), (decide (low ≤ y ≤ high));
          order_by Hleft Hright Hx' Hy'.
      * intros x y vx vy ? ? (x' & Hx' & Hxo & Hxi)%Horigin
          (y' & Hy' & Hyo & Hyi)%Horigin.
        destruct (decide (low ≤ x ≤ high)), (decide (low ≤ y ≤ high));
          order_by Hleft Hright Hx' Hy'.
Qed.

(** The first [k] positions of the final vector select the [k]-th
    smallest value. *)
Lemma qs_post_selects v arr :
  1 ≤ k → qs_post S k v arr → selects S (take (Z.to_nat k) arr) v.
Proof.
  intros Hk [Hlen Hperm Hv Hleft Hright].
  exists (drop (Z.to_nat k) arr). rewrite take_drop. split_and!; [done|..].
  - apply elem_of_take. exists (Z.to_nat (k - 1)). split; [|lia].
    unfold zlookup in Hv. by rewrite decide_True in Hv by lia.
  - intros y (i & Hi & Hlt)%elem_of_take. rewrite <-zlookup_nat in Hi.
    destruct (decide (Z.of_nat i = k - 1)) as [Heq|].
    + rewrite Heq in Hi. by simplify_eq.
    + eapply Hleft; [|done]. lia.
  - intros x (i & Hi)%list_elem_of_lookup_1. rewrite lookup_drop in Hi.
    rewrite <-zlookup_nat in Hi. eapply Hright; [|done]. lia.
Qed.
End quickselect_spec.

(** ** The max-heap on the first positions *)

Section heapifyDown_spec.
Variables (start end_ : Z).
Hypothesis Hstart : 0 ≤ start.

(** The choice of the larger child. *)
Lemma larger_child_correct arr parent :
  0 ≤ parent → 2 * parent + 1 ≤ end_ → end_ < Z.of_nat (length arr) →
  ∃ (b : bool) c vc,
    (if decide (2 * parent + 1 + 1 ≤ end_) then
       a1 ← vget arr (2 * parent + 1 + 1);
       a0 ← vget arr (2 * parent + 1);
       Ok (bool_decide (a1 > a0))
     else Ok false) = Ok b
    ∧ c = (if b then 2 * parent + 1 + 1 else 2 * parent + 1)
    ∧ zlookup arr c = Some vc
    ∧ is_child parent c ∧ c ≤ end_
    ∧ (∀ c' v', is_child parent c' → c' ≤ end_ →
         zlookup arr c' = Some v' → v' ≤ vc).
Proof.
  intros Hp Hc Hend. unfold is_child.
  destruct (zlookup_is_Some arr (2 * parent + 1)) as [vl Hvl]; [lia|].
  destruct (decide (2 * parent + 1 + 1 ≤ end_)) as [Hr|Hr].
  - destruct (zlookup_is_Some arr (2 * parent + 1 + 1)) as [vr Hvr]; [lia|].
    rewrite (vget_Ok _ _ _ Hvl), (vget_Ok _ _ _ Hvr), !bind_Ok.
    destruct (decide (vr > vl)) as [Hgt|Hgt].
    + rewrite bool_decide_true by done.
      exists true, (2 * parent + 1 + 1), vr.
      split_and!; try done; try lia.
      intros c' v' [->| ->] _ Hv'.
      * simplify_eq. lia.
      * replace (2 * parent + 2) with (2 * parent + 1 + 1) in Hv' by lia.
        simplify_eq. lia.
    + rewrite bool_decide_false by done.
      exists false, (2 * parent + 1), vl.
      split_and!; try done; try lia.
      intros c' v' [->| ->] _ Hv'.
      * simplify_eq. lia.
      * replace (2 * parent + 2) with (2 * parent + 1 + 1) in Hv' by lia.
        simplify_eq. lia.
  - exists false, (2 * parent + 1), vl.
    split_and!; try done; try lia.
    intros c' v' [->| ->] ? Hv'; [|lia]. simplify_eq. lia.
Qed.

(** Below [2 ^ 30] positions the children's indices are within [int]. *)
Hypothesis Hend30 : end_ < 2 ^ 30.

Lemma heapifyDown_while_correct fuel arr parent :
  start ≤ parent →
  end_ < Z.of_nat (length arr) →
  end_ - parent ≤ Z.of_nat fuel →
  sift_inv start end_ arr parent →
  ∃ arr', heapifyDown_while fuel arr parent (2 * parent + 1) end_ = Ok arr'
          ∧ sift_post start end_ arr parent arr'.
Proof.
  revert arr parent. induction fuel as [|fuel IH];
    intros arr parent Hparent Hend Hfuel [Hothers Hgrand].
  - cbn [heapifyDown_while]. rewrite decide_False by lia.
    exists arr. split; [done|]. split; try done.
    intros p Hp. destruct (decide (p = parent)) as [->|]; [|by apply Hothers].
    intros c vp vc Hc. unfold is_child in Hc. lia.
  - cbn [heapifyDown_while].
    destruct (decide (2 * parent + 1 ≤ end_)) as [Hchild|Hchild]; last first.
    { exists arr. split; [done|]. split; try done.
      intros p Hp.
      destruct (decide (p = parent)) as [->|]; [|by apply Hothers].
      intros c vp vc Hc. unfold is_child in Hc. lia. }
    destruct (larger_child_correct arr parent)
      as (b & c & vc & -> & Hc & Hvc & Hpc & Hcend & Hmax); [lia..|].
    rewrite bind_Ok. cbv zeta. rewrite <-Hc. clear b Hc.
    destruct (zlookup_is_Some arr parent) as [vp Hvp]; [lia|].
    rewrite (vget_Ok _ _ _ Hvp), (vget_Ok _ _ _ Hvc), !bind_Ok.
    destruct (decide (vp >= vc)) as [Hge|Hlt].
    { exists arr. split; [done|]. split; try done.
      intros p Hp.
      destruct (decide (p = parent)) as [->|]; [|by apply Hothers].
      intros c' vp' v' Hc' Hc'end Hvp' Hv'. simplify_eq.
      specialize (Hmax c' v' Hc' Hc'end Hv'). lia. }
    rewrite (swap_run _ _ _ _ _ _ Hvp Hvc).
    assert (parent < c) as Hpltc by (unfold is_child in Hpc; lia).
    rewrite (to_int_small (2 * c + 1)) by (unfold INT_MAX; lia).
    destruct (IH (swapped arr parent c vp vc) c)
      as (arr' & -> & [Hlen' Hperm' Hframe' Hheap']).
    + lia.
    + by rewrite length_swapped.
    + lia.
    + split.
      * intros p Hp Hpne c' wp wc Hc' Hc'end.
        rewrite !zlookup_swapped by done.
        rewrite (decide_False (P := c = p)) by done.
        destruct (decide (parent = p)) as [<-|Hpp].
        -- intros ?; simplify_eq.
           destruct (decide (c = c')) as [<-|?]; [intros; simplify_eq; lia|].
           rewrite decide_False by (unfold is_child in Hc'; lia).
           intros Hwc. by apply (Hmax c').
        -- intros Hwp. destruct (decide (c = c')) as [<-|?].
           { unfold is_child in Hc', Hpc. lia. }
           destruct (decide (parent = c')) as [<-|?].
           ++ intros ?; simplify_eq.
              by apply (Hgrand p c wp wc).
           ++ intros Hwc. by apply (Hothers p Hp ltac:(done) c').
      * intros g c' wg wc Hg Hgc Hc' Hc'end.
        assert (g = parent) as -> by (unfold is_child in Hgc, Hpc; lia).
        rewrite !zlookup_swapped by done.
        rewrite (decide_False (P := c = parent)) by lia.
        rewrite (decide_True (P := parent = parent)) by done.
        rewrite !decide_False by (unfold is_child in Hc'; lia).
        intros ?; simplify_eq.
        intros Hwc. by apply (Hothers c ltac:(lia) ltac:(lia) c').
    + exists arr'. split; [done|]. split; [|by rewrite Hperm', swapped_Permutation| |done].
      * by rewrite Hlen', length_swapped.
      * intros x Hx. rewrite Hframe' by lia.
        rewrite zlookup_swapped by done. by rewrite !decide_False by lia.
Qed.

Lemma heapifyDown_correct fuel arr parent :
  start ≤ parent →
  parent < 2 ^ 30 →
  end_ < Z.of_nat (length arr) →
  Z.of_nat (length arr) ≤ Z.of_nat fuel →
  sift_inv start end_ arr parent →
  ∃ arr', heapifyDown fuel arr parent end_ = Ok arr'
          ∧ sift_post start end_ arr parent arr'.
Proof.
  intros. unfold heapifyDown. cbv zeta.
  rewrite (to_int_small (2 * parent + 1)) by (unfold INT_MAX; lia).
  apply heapifyDown_while_correct; try done. lia.
Qed.
End heapifyDown_spec.

(** The root of a heap is its maximum. *)
Lemma heap_root_max arr end_ x vx v0 :
  end_ < Z.of_nat (length arr) →
  heap_from arr 0 end_ →
  0 ≤ x ≤ end_ →
  zlookup arr x = Some vx →
  zlookup arr 0 = Some v0 →
  vx ≤ v0.
Proof.
  intros Hend Hheap [Hx0 Hxe] Hvx Hv0. revert x Hx0 vx Hxe Hvx.
  apply (Z_lt_induction (λ x, ∀ vx, x ≤ end_ → zlookup arr x = Some vx → vx ≤ v0)).
  intros x IH vx Hxe Hvx.
  destruct (decide (x ≤ 0)) as [Hle|Hpos].
  { apply zlookup_Some in Hvx as Hx. assert (x = 0) as -> by lia.
    simplify_eq. lia. }
  pose (p := (x - 1) `div` 2).
  assert (0 ≤ p < x ∧ is_child p x) as [Hp Hchild].
  { unfold is_child, p.
    pose proof (Z.div_mod (x - 1) 2). pose proof (Z.mod_pos_bound (x - 1) 2).
    lia. }
  destruct (zlookup_is_Some arr p) as [vp Hvp]; [lia|].
  transitivity vp.
  - apply (Hheap p ltac:(lia) x vp vx); done.
  - apply (IH p); [lia|lia|done].
Qed.

(** ** The bounded-heap selection *)

Section heap_select_spec.
Variables (fuel : nat) (S : list Z) (n : Z).
Hypothesis Hn : 1 ≤ n ≤ Z.of_nat (length S).
Hypothesis Hfuel : (length S ≤ fuel)%nat.
Hypothesis Hn30 : n ≤ 2 ^ 30.

Lemma first_parent_bounds :
  0 ≤ (n - 2) `quot` 2 ≤ n - 1 ∧ n - 3 ≤ 2 * ((n - 2) `quot` 2).
Proof.
  destruct (decide (n = 1)) as [->|]; [done|].
  rewrite Z.quot_div_nonneg by lia.
  pose proof (Z.div_mod (n - 2) 2). pose proof (Z.mod_pos_bound (n - 2) 2).
  lia.
Qed.

Lemma build_heap_correct :
  ∃ arr, for_down ((n - 2) `quot` 2) 0
           (λ nums i, heapifyDown fuel nums i (n - 1)) S = Ok arr
         ∧ build_inv S n (-1) arr.
Proof.
  destruct first_parent_bounds as [[Hq0 Hq1] Hq].
  apply (for_down_inv (build_inv S n)); [lia| |].
  - split; try done. intros p Hp c vp vc Hc. unfold is_child in Hc. lia.
  - intros i arr Hi [Hlen Hperm Hframe Hheap].
    destruct (heapifyDown_correct i (n - 1) ltac:(lia) ltac:(lia) fuel arr i)
      as (arr' & -> & [Hlen' Hperm' Hframe' Hheap']); [lia..| |].
    { split.
      - intros p Hp Hne. apply Hheap. lia.
      - intros g c vg vc Hg Hgi. unfold is_child in Hgi. lia. }
    eexists; split; [done|]. split.
    + congruence.
    + by rewrite Hperm'.
    + intros x Hx. rewrite Hframe' by lia. by apply Hframe.
    + by replace (i - 1 + 1) with i by lia.
Qed.

Lemma scan_inv_init arr : build_inv S n (-1) arr → scan_inv S n n arr.
Proof.
  intros [Hlen Hperm Hframe Hheap]. split; try done.
  exists []. rewrite app_nil_r. split; [|by intros ?? _ ?%elem_of_nil].
  rewrite <-!segment_prefix.
  apply segment_Permutation; [lia..|done|done|].
  intros x Hx. destruct (decide (n ≤ x)); [by apply Hframe|].
  unfold zlookup. by rewrite !decide_False by lia.
Qed.

Lemma heap_prefix_max arr r y :
  length arr = length S →
  heap_from arr 0 (n - 1) →
  zlookup arr 0 = Some r →
  y ∈ take (Z.to_nat n) arr → y ≤ r.
Proof.
  intros Hlen Hheap Hr (i & Hi & Hlt)%elem_of_take.
  rewrite <-zlookup_nat in Hi.
  eapply (heap_root_max arr (n - 1)); [lia|done| |done|done]. lia.
Qed.

Lemma heap_scan_body_inv i arr :
  n ≤ i < Z.of_nat (length S) →
  scan_inv S n i arr →
  ∃ arr', heap_scan_body fuel n arr i = Ok arr'
          ∧ scan_inv S n (i + 1) arr'.
Proof.
  intros Hi [Hlen Hframe Hheap (R & Hperm & Hle)]. unfold heap_scan_body.
  destruct (zlookup_is_Some arr i) as [e He]; [lia|].
  destruct (zlookup_is_Some arr 0) as [r Hr]; [lia|].
  rewrite (vget_Ok _ _ _ He), (vget_Ok _ _ _ Hr), !bind_Ok.
  assert (take (Z.to_nat (i + 1)) S = take (Z.to_nat i) S ++ [e]) as Htake.
  { replace (Z.to_nat (i + 1)) with (Datatypes.S (Z.to_nat i)) by lia.
    apply take_S_r. rewrite Hframe in He by lia.
    unfold zlookup in He. by rewrite decide_True in He by lia. }
  pose proof (heap_prefix_max arr r) as Hmax.
  destruct (decide (e < r)) as [Hlt|Hge]; last first.
  { exists arr. split; [done|]. split; try done.
    exists (e :: R). split.
    - by rewrite Htake, <-Hperm, <-app_assoc, (comm _ R [e]).
    - intros y x Hy [->|Hx]%elem_of_cons; [|by apply Hle].
      specialize (Hmax y Hlen Hheap Hr Hy). lia. }
  rewrite vset_Ok, bind_Ok by lia. set (arr1 := <[Z.to_nat 0:=e]> arr).
  assert (length arr1 = length arr) as Hlen1 by apply length_insert.
  destruct (heapifyDown_correct 0 (n - 1) ltac:(done) ltac:(lia) fuel arr1 0)
    as (arr2 & -> & [Hlen2 Hperm2 Hframe2 Hheap2]); [lia..| |].
  { split.
    - intros p Hp Hne c vp vc Hc Hce. unfold arr1.
      rewrite !zlookup_insert by lia.
      rewrite !decide_False by (unfold is_child in Hc; lia).
      by apply (Hheap p Hp c).
    - intros g c vg vc Hg Hgi. unfold is_child in Hgi. lia. }
  exists arr2. split; [done|].
  assert (∃ tl, take (Z.to_nat n) arr = r :: tl
                ∧ take (Z.to_nat n) arr2 ≡ₚ e :: tl) as (tl & Htl & Htl2).
  { destruct (take (Z.to_nat n) arr) as [|r' tl] eqn:Harr.
    { apply (f_equal length) in Harr. rewrite length_take in Harr.
      simpl in Harr. lia. }
    exists tl.
    assert (r' = r) as ->.
    { apply (f_equal (λ l, l !! 0%nat)) in Harr.
      rewrite lookup_take_lt in Harr by lia.
      unfold zlookup in Hr. rewrite decide_True in Hr by lia.
      change (Z.to_nat 0) with 0%nat in Hr. simpl in *. congruence. }
    split; [done|].
    destruct (segment_Permutation arr1 arr2 0 (n - 1)) as [Hseg _];
      [lia..|done|done| |].
    { intros x Hx. apply Hframe2. lia. }
    rewrite !segment_prefix in Hseg. rewrite Hseg. unfold arr1.
    rewrite take_insert_lt by lia. by rewrite Harr. }
  split.
  - congruence.
  - intros x Hx. rewrite Hframe2 by lia. unfold arr1.
    rewrite zlookup_insert by lia. rewrite decide_False by lia.
    by apply Hframe.
  - done.
  - exists (r :: R). split.
    + rewrite Htake, <-Hperm, Htl, Htl2. simpl.
      rewrite <-Permutation_middle, <-app_assoc, (comm _ R [e]).
      rewrite app_assoc, <-Permutation_middle, app_nil_r.
      apply Permutation_swap.
    + intros y x Hy Hx. rewrite Htl2 in Hy.
      assert (∀ z, z ∈ r :: tl → z ≤ r) as Hmax'.
      { intros z Hz. rewrite <-Htl in Hz. by apply Hmax. }
      assert (∀ z, z ∈ R → r ≤ z) as Hmin.
      { intros z Hz. apply Hle; [|done]. rewrite Htl. by left. }
      apply elem_of_cons in Hy as [->|Hy], Hx as [->|Hx].
      * lia.
      * specialize (Hmin x Hx). lia.
      * apply Hmax'. by right.
      * apply Hle; [|done]. rewrite Htl. by right.
Qed.

Hypothesis Hsize : Z.of_nat (length S) ≤ INT_MAX.

(** The whole routine on a valid rank. *)
Lemma heap_run_correct :
  ∃ v arr, sort_nth_smallest_heap_run fuel S n = Ok (v, arr)
           ∧ length arr = length S
           ∧ zlookup arr 0 = Some v
           ∧ selects S (take (Z.to_nat n) arr) v.
Proof.
  unfold sort_nth_smallest_heap_run.
  rewrite decide_False by (unfold invalid_rank; lia). cbv zeta.
  rewrite (to_int_small (Z.of_nat (length S))) by lia.
  destruct build_heap_correct as (arr1 & -> & Hbuild). rewrite bind_Ok.
  destruct (for_up_inv (scan_inv S n) n (Z.of_nat (length S))
              (heap_scan_body fuel n) arr1)
    as (arr & -> & [Hlen Hframe Hheap (R & Hperm & Hle)]);
    [lia|by apply scan_inv_init|apply heap_scan_body_inv|].
  rewrite bind_Ok.
  destruct (zlookup_is_Some arr 0) as [r Hr]; [lia|].
  rewrite (vget_Ok _ _ _ Hr), bind_Ok.
  exists r, arr. split_and!; try done.
  rewrite (take_ge S) in Hperm by lia.
  assert (r ∈ take (Z.to_nat n) arr) as Hmem.
  { apply elem_of_take. exists 0%nat. split; [|lia].
    unfold zlookup in Hr. by rewrite decide_True in Hr by lia. }
  exists R. split_and!; [done|done|..].
  - intros y Hy. by apply (heap_prefix_max arr).
  - intros x Hx. by apply Hle.
Qed.
End heap_select_spec.

(** ** Fuel only bounds the loops *)

Lemma quickSelect_fuel_mono fuel fuel' arr low high k r :
  (fuel ≤ fuel')%nat →
  quickSelect fuel arr low high k = Ok r →
  quickSelect fuel' arr low high k = Ok r.
Proof.
  revert fuel' arr low high. induction fuel as [|fuel IH];
    intros [|fuel'] arr low high Hle; cbn [quickSelect];
    case_decide; try done; try lia.
  destruct (partition arr low high) as [[arr1 p]|]; [|done].
  rewrite !bind_Ok. repeat case_decide; try done; apply IH; lia.
Qed.

Lemma heapifyDown_while_fuel_mono fuel fuel' arr parent child end_ r :
  (fuel ≤ fuel')%nat →
  heapifyDown_while fuel arr parent child end_ = Ok r →
  heapifyDown_while fuel' arr parent child end_ = Ok r.
Proof.
  revert fuel' arr parent child. induction fuel as [|fuel IH];
    intros [|fuel'] arr parent child Hle; cbn [heapifyDown_while];
    case_decide; try done; try lia.
  destruct (if decide (child + 1 ≤ end_) then _ else _) as [b|]; [|done].
  rewrite !bind_Ok. cbv zeta.
  destruct (vget arr parent) as [ap|]; [|done]. rewrite !bind_Ok.
  destruct (vget arr (if b then child + 1 else child)) as [ac|]; [|done].
  rewrite !bind_Ok. case_decide; [done|].
  destruct (vset arr parent ac) as [arr1|]; [|done]. rewrite !bind_Ok.
  destruct (vset arr1 _ ap) as [arr2|]; [|done]. rewrite !bind_Ok.
  apply IH. lia.
Qed.

Lemma for_up_from_mono {St} (body body' : St → Z → outcome St) count j s r :
  (∀ s j r, body s j = Ok r → body' s j = Ok r) →
  for_up_from count j body s = Ok r → for_up_from count j body' s = Ok r.
Proof.
  intros Hb. revert j s. induction count as [|count IH]; intros j s; [done|].
  cbn [for_up_from]. destruct (body s j) as [s1|] eqn:Hs1; [|done].
  rewrite (Hb _ _ _ Hs1), !bind_Ok. apply IH.
Qed.

Lemma for_down_from_mono {St} (body body' : St → Z → outcome St) count i s r :
  (∀ s i r, body s i = Ok r → body' s i = Ok r) →
  for_down_from count i body s = Ok r → for_down_from count i body' s = Ok r.
Proof.
  intros Hb. revert i s. induction count as [|count IH]; intros i s; [done|].
  cbn [for_down_from]. destruct (body s i) as [s1|] eqn:Hs1; [|done].
  rewrite (Hb _ _ _ Hs1), !bind_Ok. apply IH.
Qed.

Lemma heap_scan_body_fuel_mono fuel fuel' n nums i r :
  (fuel ≤ fuel')%nat →
  heap_scan_body fuel n nums i = Ok r → heap_scan_body fuel' n nums i = Ok r.
Proof.
  intros Hle. unfold heap_scan_body.
  destruct (vget nums i) as [ai|]; [|done]. rewrite !bind_Ok.
  destruct (vget nums 0) as [a0|]; [|done]. rewrite !bind_Ok.
  case_decide; [|done].
  destruct (vset nums 0 ai) as [nums1|]; [|done]. rewrite !bind_Ok.
  by apply heapifyDown_while_fuel_mono.
Qed.

Lemma heap_run_fuel_mono fuel fuel' nums n r :
  (fuel ≤ fuel')%nat →
  sort_nth_smallest_heap_run fuel nums n = Ok r →
  sort_nth_smallest_heap_run fuel' nums n = Ok r.
Proof.
  intros Hle. unfold sort_nth_smallest_heap_run.
  case_decide; [done|]. cbv zeta. unfold for_down, for_up.
  destruct (for_down_from _ _ _ nums) as [nums1|] eqn:H1; [|done].
  apply (for_down_from_mono _ (λ nums i, heapifyDown fuel' nums i (n - 1)))
    in H1; [|intros s i r'; by apply heapifyDown_while_fuel_mono].
  rewrite H1, !bind_Ok.
  destruct (for_up_from _ _ _ nums1) as [nums2|] eqn:H2; [|done].
  apply (for_up_from_mono _ (heap_scan_body fuel' n)) in H2;
    [|intros s i r'; by apply heap_scan_body_fuel_mono].
  by rewrite H2.
Qed.

(** ** The two routines on a valid rank *)

Lemma quickselect_run_correct fuel S n :
  Z.of_nat (length S) ≤ INT_MAX →
  1 ≤ n ≤ Z.of_nat (length S) →
  (length S ≤ fuel)%nat →
  ∃ v arr, sort_nth_smallest_quickselect_run fuel S n = Ok (v, arr)
           ∧ length arr = length S
           ∧ zlookup arr (n - 1) = Some v
           ∧ selects S (take (Z.to_nat n) arr) v.
Proof.
  intros Hsize Hn Hfuel. unfold sort_nth_smallest_quickselect_run.
  rewrite decide_False by (unfold invalid_rank; lia).
  rewrite (to_int_small (Z.of_nat (length S) - 1)) by lia.
  destruct (quickSelect_correct S n fuel S 0 (Z.of_nat (length S) - 1))
    as (v & arr & -> & Hpost); [by apply qs_inv_init|lia|].
  exists v, arr. split_and!; [done|apply Hpost..|].
  apply qs_post_selects; [lia|done].
Qed.

(** What a selection says in terms of the sorted input. *)
Lemma selects_take_spec S n arr v :
  1 ≤ n ≤ Z.of_nat (length S) →
  length arr = length S →
  selects S (take (Z.to_nat n) arr) v →
  sorted S !! Z.to_nat (n - 1) = Some v
  ∧ take (Z.to_nat n) arr ≡ₚ n_smallest n S.
Proof.
  intros Hn Hlen [Hperm Hv]%selects_n_smallest.
  rewrite length_take_le in Hperm, Hv by lia.
  rewrite Z2Nat.id in Hperm by lia.
  split; [|done]. by replace (Z.to_nat (n - 1)) with (Z.to_nat n - 1)%nat by lia.
Qed.

Lemma quickselect_value S n :
  Z.of_nat (length S) ≤ INT_MAX →
  1 ≤ n ≤ Z.of_nat (length S) →
  ∃ v, sorted S !! Z.to_nat (n - 1) = Some v
       ∧ sort_nth_smallest_quickselect S n = Ok v.
Proof.
  intros Hsize Hn.
  destruct (quickselect_run_correct (length S) S n)
    as (v & arr & Hrun & Hlen & _ & Hsel); [done..|].
  exists v. split; [by eapply selects_take_spec|].
  unfold sort_nth_smallest_quickselect. by rewrite Hrun.
Qed.

Lemma heap_value S n :
  Z.of_nat (length S) ≤ INT_MAX →
  1 ≤ n ≤ Z.of_nat (length S) →
  n ≤ 2 ^ 30 →
  ∃ v, sorted S !! Z.to_nat (n - 1) = Some v
       ∧ sort_nth_smallest_heap S n = Ok v.
Proof.
  intros Hsize Hn Hn30.
  destruct (heap_run_correct (length S) S n)
    as (v & arr & Hrun & Hlen & _ & Hsel); [done..|].
  exists v. split; [by eapply selects_take_spec|].
  unfold sort_nth_smallest_heap. by rewrite Hrun.
Qed.

(** The loop of [quickSelect] comes to an end on any range of a vector,
    whatever the rank looked for: each step leaves a range that is shorter
    by one position at least. *)
Lemma quickSelect_terminates fuel arr low high k :
  0 ≤ low →
  high < Z.of_nat (length arr) →
  high - low + 1 ≤ Z.of_nat fuel →
  ∃ r, quickSelect fuel arr low high k = Ok r.
Proof.
  revert arr low high. induction fuel as [|fuel IH];
    intros arr low high Hlow Hhigh Hfuel; cbn [quickSelect].
  { rewrite decide_False by lia. by eexists. }
  case_decide; [|by eexists].
  destruct (zlookup_is_Some arr high) as [pivot Hpivot]; [lia|].
  destruct (partition_correct arr low high pivot)
    as (arr1 & p & -> & [Hlen _ _ Hrange Hp _ _]); [lia..|done|].
  rewrite bind_Ok. repeat case_decide.
  - subst. rewrite (vget_Ok _ _ _ Hp), bind_Ok. by eexists.
  - apply IH; lia.
  - apply IH; lia.
Qed.

(** The loop never reads or writes outside the vector: short of fuel it
    stops with [OutOfFuel], and with nothing else. *)
Lemma quickSelect_no_fault fuel arr low high k :
  0 ≤ low →
  high < Z.of_nat (length arr) →
  (∃ r, quickSelect fuel arr low high k = Ok r)
  ∨ quickSelect fuel arr low high k = Stuck OutOfFuel.
Proof.
  revert arr low high. induction fuel as [|fuel IH];
    intros arr low high Hlow Hhigh; cbn [quickSelect].
  { case_decide; [by right|left; by eexists]. }
  case_decide; [|left; by eexists].
  destruct (zlookup_is_Some arr high) as [pivot Hpivot]; [lia|].
  destruct (partition_correct arr low high pivot)
    as (arr1 & p & -> & [Hlen _ _ Hrange Hp _ _]); [lia..|done|].
  rewrite bind_Ok. repeat case_decide.
  - subst. rewrite (vget_Ok _ _ _ Hp), bind_Ok. left. by eexists.
  - apply IH; lia.
  - apply IH; lia.
Qed.

(** The number of executions of a loop body is the least fuel that lets
    the loop return. *)
Lemma least_fuel {A} (run : nat → outcome A) (N : nat) (r : A) :
  run N = Ok r →
  (∀ f f' r', (f ≤ f')%nat → run f = Ok r' → run f' = Ok r') →
  (∀ f, (∃ r', run f = Ok r') ∨ run f = Stuck OutOfFuel) →
  ∃ m, (m ≤ N)%nat
       ∧ (∀ f, (m ≤ f)%nat → run f = Ok r)
       ∧ (∀ f, (f < m)%nat → run f = Stuck OutOfFuel).
Proof.
  intros HN Hmono Hcases. induction N as [|N IH].
  - exists 0%nat. split_and!; [done| |lia].
    intros f Hf. by apply (Hmono 0%nat).
  - destruct (Hcases N) as [[r' Hr']|Hstuck].
    + assert (r' = r) as ->.
      { apply (Hmono N (Datatypes.S N)) in Hr'; [congruence|lia]. }
      destruct (IH Hr') as (m & Hm & Hge & Hlt).
      exists m. split_and!; [lia|done|done].
    + exists (Datatypes.S N). split_and!; [done| |].
      * intros f Hf. by apply (Hmono (Datatypes.S N)).
      * intros f Hf. destruct (Hcases f) as [[r' Hr']|]; [|done].
        apply (Hmono f N) in Hr'; [congruence|lia].
Qed.

(** ** A vector whose size does not fit an [int] *)

Lemma quickSelect_empty_range fuel arr low high k :
  high < low → quickSelect fuel arr low high k = Ok (-1, arr).
Proof.
  intros Hlt. destruct fuel; cbn [quickSelect]; by rewrite decide_False by lia.
Qed.

Lemma heapifyDown_no_child fuel arr start end_ :
  0 ≤ start → start < 2 ^ 30 → end_ < 2 * start + 1 →
  heapifyDown fuel arr start end_ = Ok arr.
Proof.
  intros Hstart Hstart30 Hend. unfold heapifyDown. cbv zeta.
  rewrite (to_int_small (2 * start + 1)) by (unfold INT_MAX; lia).
  destruct fuel; cbn [heapifyDown_while]; by rewrite decide_False by lia.
Qed.

Lemma long_input_length N :
  Z.of_nat N = 2 ^ 31 → Z.of_nat (length (long_input N)) = 2 ^ 31 + 1.
Proof. intros HN. unfold long_input. rewrite length_cons, length_replicate. lia. Qed.

Lemma long_input_valid N :
  Z.of_nat N = 2 ^ 31 → 1 ≤ 1 ≤ Z.of_nat (length (long_input N)).
Proof. intros HN. rewrite long_input_length by done. lia. Qed.

(** The size less one narrows to the least [int]: the range of the loop
    is empty from the start and the routine returns its [-1]. *)
Lemma long_input_quickselect_run N fuel :
  Z.of_nat N = 2 ^ 31 →
  sort_nth_smallest_quickselect_run fuel (long_input N) 1
  = Ok (-1, long_input N).
Proof.
  intros HN. unfold sort_nth_smallest_quickselect_run.
  rewrite decide_False
    by (unfold invalid_rank; rewrite long_input_length by done; lia).
  rewrite long_input_length by done.
  apply quickSelect_empty_range.
  replace (2 ^ 31 + 1 - 1) with (2 ^ 31) by lia.
  change (to_int (2 ^ 31)) with (- 2 ^ 31). lia.
Qed.

(** The size narrows to a negative [int]: the scan of Step 2 is skipped
    and the routine returns the first value of the input. *)
Lemma long_input_heap_run N fuel :
  Z.of_nat N = 2 ^ 31 →
  sort_nth_smallest_heap_run fuel (long_input N) 1 = Ok (1, long_input N).
Proof.
  intros HN. unfold sort_nth_smallest_heap_run.
  rewrite decide_False
    by (unfold invalid_rank; rewrite long_input_length by done; lia).
  cbv zeta. rewrite long_input_length by done.
  change ((1 - 2) `quot` 2) with 0.
  change (to_int (2 ^ 31 + 1)) with (- 2 ^ 31 + 1).
  unfold for_down, for_up.
  change (Z.to_nat (0 - 0 + 1)) with 1%nat.
  change (Z.to_nat (- 2 ^ 31 + 1 - 1)) with 0%nat.
  cbn [for_down_from for_up_from].
  rewrite heapifyDown_no_child by lia.
  by rewrite !bind_Ok.
Qed.

Lemma long_input_sorted N : sorted (long_input N) = replicate N 0 ++ [1].
Proof.
  apply sorted_unique.
  - apply StronglySorted_app. split_and!.
    + intros x y [-> _]%elem_of_replicate ->%list_elem_of_singleton. lia.
    + induction N as [|N IH]; simpl; constructor; [done|].
      apply Forall_forall. intros x [-> _]%elem_of_replicate. lia.
    + repeat constructor.
  - unfold long_input. by rewrite (comm (++)).
Qed.

Lemma long_input_smallest N :
  Z.of_nat N = 2 ^ 31 →
  sorted (long_input N) !! Z.to_nat (1 - 1) = Some 0
  ∧ n_smallest 1 (long_input N) = [0].
Proof.
  intros HN. unfold n_smallest. rewrite long_input_sorted.
  change (Z.to_nat (1 - 1)) with 0%nat. change (Z.to_nat 1) with 1%nat.
  destruct N as [|N]; [lia|]. done.
Qed.

Lemma long_vector_size : Z.of_nat (Z.to_nat (2 ^ 31)) = 2 ^ 31.
Proof. apply Z2Nat.id. lia. Qed.

(** ** A heap whose child indices do not fit an [int] *)

Lemma vget_negative arr i : i < 0 → vget arr i = Stuck OutOfBounds.
Proof. intros Hi. unfold vget, zlookup. by rewrite decide_False by lia. Qed.

Lemma deep_input_length N : length (deep_input N) = Datatypes.S N.
Proof. unfold deep_input. rewrite length_app, length_replicate. simpl. lia. Qed.

Lemma deep_input_zero N i :
  0 ≤ i < Z.of_nat N → zlookup (deep_input N) i = Some 0.
Proof.
  intros Hi. unfold zlookup, deep_input. rewrite decide_True by lia.
  rewrite lookup_app_l by (rewrite length_replicate; lia).
  apply lookup_replicate_2. lia.
Qed.

Lemma deep_input_last N : zlookup (deep_input N) (Z.of_nat N) = Some 1.
Proof.
  rewrite zlookup_nat. unfold deep_input.
  rewrite lookup_app_r by (rewrite length_replicate; lia).
  rewrite length_replicate, Nat.sub_diag. reflexivity.
Qed.

(** On the [2 ^ 30 + 2] values of [deep_input], the [heapifyDown] at
    position [2 ^ 29] swaps the 1 of the last position into it, goes on
    from position [2 ^ 30 + 1], whose child index [2 * (2 ^ 30 + 1) + 1]
    is beyond [int], and reads out of range. *)
Lemma deep_input_heapifyDown N fuel :
  Z.of_nat N = 2 ^ 30 + 1 →
  (2 ≤ fuel)%nat →
  heapifyDown fuel (deep_input N) (2 ^ 29) (2 ^ 30 + 1) = Stuck OutOfBounds.
Proof.
  intros HN Hfuel. unfold heapifyDown. cbv zeta.
  rewrite (to_int_small (2 * 2 ^ 29 + 1)) by (unfold INT_MAX; lia).
  replace (2 * 2 ^ 29 + 1) with (2 ^ 30 + 1) by lia.
  destruct fuel as [|[|fuel]]; [lia..|]. cbn [heapifyDown_while].
  assert (2 ^ 30 + 1 ≤ 2 ^ 30 + 1) as H1 by lia.
  assert (¬ 2 ^ 30 + 1 + 1 ≤ 2 ^ 30 + 1) as H2 by lia.
  rewrite (decide_True _ _ H1), (decide_False _ _ H2), bind_Ok.
  pose proof (deep_input_zero N (2 ^ 29) ltac:(lia)) as Hp.
  pose proof (deep_input_last N) as Hc. rewrite HN in Hc.
  rewrite (vget_Ok _ _ _ Hp), (vget_Ok _ _ _ Hc), !bind_Ok.
  assert (¬ 0 >= 1) as H3 by lia.
  rewrite (decide_False _ _ H3), (swap_run _ _ _ _ _ _ Hp Hc).
  assert (to_int (2 * (2 ^ 30 + 1) + 1) = - 2 ^ 31 + 3) as -> by reflexivity.
  assert (- 2 ^ 31 + 3 ≤ 2 ^ 30 + 1) as H4 by lia.
  assert (- 2 ^ 31 + 3 + 1 ≤ 2 ^ 30 + 1) as H5 by lia.
  rewrite (decide_True _ _ H4), (decide_True _ _ H5).
  rewrite (vget_negative (swapped (deep_input N) (2 ^ 29) (2 ^ 30 + 1) 0 1)
             (- 2 ^ 31 + 3 + 1)) by lia.
  reflexivity.
Qed.

Lemma for_down_first {St} hi lo (body : St → Z → outcome St) (s : St) :
  lo ≤ hi →
  for_down hi lo body s = body s hi ≫= for_down (hi - 1) lo body.
Proof.
  intros Hle. unfold for_down.
  replace (Z.to_nat (hi - lo + 1))
    with (Datatypes.S (Z.to_nat (hi - 1 - lo + 1))) by lia.
  reflexivity.
Qed.

Lemma heap_run_valid fuel nums n :
  ¬ invalid_rank nums n →
  sort_nth_smallest_heap_run fuel nums n
  = (nums1 ← for_down ((n - 2) `quot` 2) 0
                (λ nums i, heapifyDown fuel nums i (n - 1)) nums;
     nums2 ← for_up n (to_int (Z.of_nat (length nums)))
                (heap_scan_body fuel n) nums1;
     root ← vget nums2 0;
     Ok (root, nums2)).
Proof.
  intros Hvalid. unfold sort_nth_smallest_heap_run.
  by rewrite decide_False by done.
Qed.

(** So Step 1 of the heap routine fails at its first [heapifyDown]. *)
Lemma deep_input_heap_run N fuel :
  Z.of_nat N = 2 ^ 30 + 1 →
  (2 ≤ fuel)%nat →
  sort_nth_smallest_heap_run fuel (deep_input N) (2 ^ 30 + 2)
  = Stuck OutOfBounds.
Proof.
  intros HN Hfuel.
  rewrite heap_run_valid
    by (unfold invalid_rank; rewrite deep_input_length; lia).
  assert ((2 ^ 30 + 2 - 2) `quot` 2 = 2 ^ 29) as -> by reflexivity.
  rewrite for_down_first by lia.
  replace (2 ^ 30 + 2 - 1) with (2 ^ 30 + 1) by lia.
  rewrite deep_input_heapifyDown by done.
  reflexivity.
Qed.

(** The rank [2 ^ 30 + 2] is valid for a [deep_input] of [2 ^ 30 + 2]
    values, whose size is within [int], and the heap routine does not
    return. *)
Lemma deep_input_heap_stuck N :
  Z.of_nat N = 2 ^ 30 + 1 →
  Z.of_nat (length (deep_input N)) ≤ INT_MAX
  ∧ 1 ≤ 2 ^ 30 + 2 ≤ Z.of_nat (length (deep_input N))
  ∧ sort_nth_smallest_heap (deep_input N) (2 ^ 30 + 2) = Stuck OutOfBounds.
Proof.
  intros HN. rewrite deep_input_length.
  split; [unfold INT_MAX; lia|]. split; [lia|].
  unfold sort_nth_smallest_heap.
  rewrite deep_input_heap_run; [reflexivity|done|].
  rewrite deep_input_length. lia.
Qed.

Lemma deep_vector_size :
  Z.of_nat (Z.to_nat (2 ^ 30 + 1)) = 2 ^ 30 + 1.
Proof. apply Z2Nat.id. lia. Qed.

Lemma deep_vector_heap_stuck :
  Z.of_nat (length deep_vector) ≤ INT_MAX
  ∧ 1 ≤ 2 ^ 30 + 2 ≤ Z.of_nat (length deep_vector)
  ∧ sort_nth_smallest_heap deep_vector (2 ^ 30 + 2) = Stuck OutOfBounds.
Proof. exact (deep_input_heap_stuck _ deep_vector_size). Qed.

(** * The properties of the specification *)

(** ** The scenarios of the test function, run on the model *)

Example scenario_test1 :
  both_return test1 1 1 && both_return test1 4 3 && both_return test1 8 9
  = true.
Proof. vm_compute. reflexivity. Qed.

Example scenario_test2 :
  both_return test2 1 1 && both_return test2 5 3 = true.
Proof. vm_compute. reflexivity. Qed.

Example scenario_test3 :
  forallb (λ k, both_return test3 k k) (seqZ 1 8) = true.
Proof. vm_compute. reflexivity. Qed.

Example scenario_test4 :
  forallb (λ k, both_return test4 k k) (seqZ 1 8) = true.
Proof. vm_compute. reflexivity. Qed.

Example scenario_test5 : both_return [42] 1 42 = true.
Proof. vm_compute. reflexivity. Qed.

Example scenario_test6 :
  both_return [1; 2; 3] 0 (-1) && both_return [1; 2; 3] 5 (-1) = true.
Proof. vm_compute. reflexivity. Qed.

(** On the ascending input the rank 1 takes one partition step for each
    element: the bound of [length S] steps is reached. *)
Example worst_case_steps :
  sort_nth_smallest_quickselect_run 7 test3 1 = Stuck OutOfFuel
  ∧ sort_nth_smallest_quickselect_run 8 test3 1 = Ok (1, test3).
Proof. vm_compute. done. Qed.

(** ** C1 *)




(** ** C2 *)




(** ** C3 *)




(** ** C4 *)

(** C4. For every sequence [S] and every [n] with [n <= 0] or [n > |S|],
    both routines return the sentinel [-1]; on the empty input this holds
    for every [n]. *)
Theorem invalid_rank_sentinel (S : list Z) (n : Z) :
  n ≤ 0 ∨ n > Z.of_nat (length S) ∨ S = [] →
  sort_nth_smallest_quickselect S n = Ok (-1)
  ∧ sort_nth_smallest_heap S n = Ok (-1).
Proof.
  intros H.
  assert (invalid_rank S n) as Hinv.
  { unfold invalid_rank. destruct H as [?|[?| ->]]; simpl; lia. }
  unfold sort_nth_smallest_quickselect, sort_nth_smallest_heap,
    sort_nth_smallest_quickselect_run, sort_nth_smallest_heap_run.
  by rewrite !decide_True by done.
Qed.

Lemma invalid_rank_sentinel_witness :
  (5 ≤ 0 ∨ 5 > Z.of_nat (length [1; 2; 3]) ∨ [1; 2; 3] = [])
  ∧ sort_nth_smallest_quickselect [1; 2; 3] 5 = Ok (-1)
  ∧ sort_nth_smallest_heap [1; 2; 3] 5 = Ok (-1).
Proof.
  assert (5 ≤ 0 ∨ 5 > Z.of_nat (length [1; 2; 3]) ∨ [1; 2; 3] = [])
    as H by (right; left; simpl; lia).
  split; [exact H|]. apply (invalid_rank_sentinel [1; 2; 3] 5 H).
Defined.

(** ** C5 *)




(** ** C6 *)

(** C6. On every segment [low .. high] of a vector with [low <= high], the
    partition step takes the last element of the segment as the pivot and
    returns an index [p] of the segment such that, afterwards, the pivot is
    at [p], every element at [low .. p - 1] is [<=] the pivot, every
    element at [p + 1 .. high] is [>] the pivot, and the segment holds the
    same multiset of values as before. *)
Theorem partition_spec (arr : list Z) (low high : Z) :
  0 ≤ low → low ≤ high → high < Z.of_nat (length arr) →
  ∃ pivot arr' p,
    zlookup arr high = Some pivot
    ∧ partition arr low high = Ok (arr', p)
    ∧ low ≤ p ≤ high
    ∧ zlookup arr' p = Some pivot
    ∧ (∀ x v, low ≤ x ≤ p - 1 → zlookup arr' x = Some v → v ≤ pivot)
    ∧ (∀ x v, p + 1 ≤ x ≤ high → zlookup arr' x = Some v → v > pivot)
    ∧ segment arr' low high ≡ₚ segment arr low high.
Proof.
  intros Hlow Hlh Hhigh.
  destruct (zlookup_is_Some arr high) as [pivot Hpivot]; [lia|].
  destruct (partition_correct arr low high pivot)
    as (arr' & p & Hrun & [Hlen Hperm Hframe Hrange Hp Hsmall Hlarge]);
    [done..|].
  exists pivot, arr', p. split_and!; try done; try lia.
  - intros x v Hx. apply Hsmall. lia.
  - intros x v Hx Hv. apply Z.lt_gt. eapply Hlarge; [|done]. lia.
  - by apply segment_Permutation; [|lia|..].
Qed.

Lemma partition_spec_witness :
  0 ≤ 2 ∧ 2 ≤ 6 ∧ 6 < Z.of_nat (length test1)
  ∧ ∃ pivot arr' p,
      zlookup test1 6 = Some pivot
      ∧ partition test1 2 6 = Ok (arr', p)
      ∧ 2 ≤ p ≤ 6
      ∧ zlookup arr' p = Some pivot
      ∧ (∀ x v, 2 ≤ x ≤ p - 1 → zlookup arr' x = Some v → v ≤ pivot)
      ∧ (∀ x v, p + 1 ≤ x ≤ 6 → zlookup arr' x = Some v → v > pivot)
      ∧ segment arr' 2 6 ≡ₚ segment test1 2 6.
Proof.
  assert (0 ≤ 2) as H0 by lia.
  assert (2 ≤ 6) as H1 by lia.
  assert (6 < Z.of_nat (length test1)) as H2 by (simpl; lia).
  split_and!; [exact H0|exact H1|exact H2|].
  apply (partition_spec test1 2 6 H0 H1 H2).
Defined.

(** ** C7 *)

(** C7. For every sequence [S] and every valid [n] the quickselect loop
    comes to an end after at most [|S|] partition steps: there is a number
    [steps <= |S|] of partition calls with which the routine returns, and
    short of which it is still running; each partition call on an active
    range returns an index inside it, so that either narrowed range is
    strictly shorter. *)
Theorem quickselect_terminates (S : list Z) (n : Z) :
  1 ≤ n ≤ Z.of_nat (length S) →
  (∃ (steps : nat) v arr,
     (steps ≤ length S)%nat
     ∧ (∀ fuel, (steps ≤ fuel)%nat →
          sort_nth_smallest_quickselect_run fuel S n = Ok (v, arr))
     ∧ (∀ fuel, (fuel < steps)%nat →
          sort_nth_smallest_quickselect_run fuel S n = Stuck OutOfFuel))
  ∧ (∀ arr low high, 0 ≤ low → low ≤ high → high < Z.of_nat (length arr) →
       ∃ arr' p, partition arr low high = Ok (arr', p)
                 ∧ length arr' = length arr
                 ∧ low ≤ p ≤ high
                 ∧ (p - 1) - low + 1 < high - low + 1
                 ∧ high - (p + 1) + 1 < high - low + 1).
Proof.
  intros Hn. split.
  - assert (to_int (Z.of_nat (length S) - 1) < Z.of_nat (length S)) as Hhigh.
    { pose proof (to_int_le (Z.of_nat (length S) - 1)). lia. }
    assert (∃ v arr,
      sort_nth_smallest_quickselect_run (length S) S n = Ok (v, arr))
      as (v & arr & Hrun).
    { unfold sort_nth_smallest_quickselect_run.
      rewrite decide_False by (unfold invalid_rank; lia).
      destruct (quickSelect_terminates (length S) S 0
                  (to_int (Z.of_nat (length S) - 1)) n) as [[v arr] Hrun];
        [lia..|].
      by exists v, arr. }
    destruct (least_fuel (λ fuel, sort_nth_smallest_quickselect_run fuel S n)
                (length S) (v, arr)) as (steps & Hsteps & Hge & Hlt).
    + done.
    + intros f f' r' Hf. unfold sort_nth_smallest_quickselect_run.
      case_decide; [done|]. by apply quickSelect_fuel_mono.
    + intros f. unfold sort_nth_smallest_quickselect_run.
      case_decide; [left; by eexists|]. by apply quickSelect_no_fault.
    + by exists steps, v, arr.
  - intros arr0 low high Hlow Hlh Hhigh.
    destruct (zlookup_is_Some arr0 high) as [pivot Hpivot]; [lia|].
    destruct (partition_correct arr0 low high pivot)
      as (arr' & p & Hp & [Hlen _ _ Hrange _ _ _]); [done..|].
    exists arr', p. split_and!; try done; lia.
Qed.

Lemma quickselect_terminates_witness :
  1 ≤ 1 ≤ Z.of_nat (length test3)
  ∧ (∃ (steps : nat) v arr,
       (steps ≤ length test3)%nat
       ∧ (∀ fuel, (steps ≤ fuel)%nat →
            sort_nth_smallest_quickselect_run fuel test3 1 = Ok (v, arr))
       ∧ (∀ fuel, (fuel < steps)%nat →
            sort_nth_smallest_quickselect_run fuel test3 1 = Stuck OutOfFuel))
  ∧ (∀ arr low high, 0 ≤ low → low ≤ high → high < Z.of_nat (length arr) →
       ∃ arr' p, partition arr low high = Ok (arr', p)
                 ∧ length arr' = length arr
                 ∧ low ≤ p ≤ high
                 ∧ (p - 1) - low + 1 < high - low + 1
                 ∧ high - (p + 1) + 1 < high - low + 1).
Proof.
  assert (1 ≤ 1 ≤ Z.of_nat (length test3)) as H by (simpl; lia).
  split; [exact H|]. apply (quickselect_terminates test3 1 H).
Defined.

(** ** C8 *)

(** C8. The sentinel [-1] is also a valid answer: there are a sequence [S]
    and a valid [n] for which [-1] is the [n]-th smallest value and both
    routines return it, the very outcome they have on an invalid rank. *)
Theorem sentinel_collision :
  ∃ (S : list Z) (n n' : Z),
    1 ≤ n ≤ Z.of_nat (length S)
    ∧ sorted S !! Z.to_nat (n - 1) = Some (-1)
    ∧ sort_nth_smallest_quickselect S n = Ok (-1)
    ∧ sort_nth_smallest_heap S n = Ok (-1)
    ∧ invalid_rank S n'
    ∧ sort_nth_smallest_quickselect S n' = sort_nth_smallest_quickselect S n
    ∧ sort_nth_smallest_heap S n' = sort_nth_smallest_heap S n.
Proof.
  exists [-1], 1, 0. split_and!; try reflexivity; try (simpl; lia).
  unfold invalid_rank. lia.
Qed.

(** * Further properties of the code *)

(** ** [heapifyDown] *)

(** One more level of the heap is reached with each execution of the loop
    body: the loop returns once [2 * (parent + 1) * 2 ^ fuel] exceeds the
    size [end_ + 1] of the heap. *)
Lemma heapifyDown_while_levels fuel arr parent end_ :
  end_ < 2 ^ 30 →
  0 ≤ parent →
  end_ < Z.of_nat (length arr) →
  end_ + 1 < 2 * (parent + 1) * 2 ^ Z.of_nat fuel →
  ∃ arr', heapifyDown_while fuel arr parent (2 * parent + 1) end_ = Ok arr'.
Proof.
  intros Hend30. revert arr parent. induction fuel as [|fuel IH];
    intros arr parent Hparent Hend Hfuel; cbn [heapifyDown_while].
  { rewrite decide_False; [by eexists|]. simpl in Hfuel. lia. }
  case_decide as Hchild; [|by eexists].
  destruct (larger_child_correct end_ arr parent)
    as (b & c & vc & -> & Hc & Hvc & Hpc & Hcend & _); [lia..|].
  rewrite bind_Ok. cbv zeta. rewrite <-Hc. clear b Hc.
  destruct (zlookup_is_Some arr parent) as [vp Hvp]; [lia|].
  rewrite (vget_Ok _ _ _ Hvp), (vget_Ok _ _ _ Hvc), !bind_Ok.
  case_decide; [by eexists|].
  rewrite (swap_run _ _ _ _ _ _ Hvp Hvc).
  rewrite (to_int_small (2 * c + 1))
    by (unfold INT_MAX, is_child in *; lia).
  apply IH.
  - unfold is_child in Hpc. lia.
  - by rewrite length_swapped.
  - rewrite Nat2Z.inj_succ, Z.pow_succ_r in Hfuel by lia.
    assert (2 * (parent + 1) ≤ c + 1) by (unfold is_child in Hpc; lia).
    assert (0 < 2 ^ Z.of_nat fuel) by (apply Z.pow_pos_nonneg; lia).
    nia.
Qed.

Lemma heapifyDown_log_fuel fuel arr start end_ :
  0 ≤ start → start < 2 ^ 30 →
  end_ < Z.of_nat (length arr) → end_ < 2 ^ 30 →
  Z.log2 (end_ + 1) ≤ Z.of_nat fuel →
  ∃ arr', heapifyDown fuel arr start end_ = Ok arr'.
Proof.
  intros Hstart Hstart30 Hend Hend30 Hfuel. unfold heapifyDown. cbv zeta.
  rewrite (to_int_small (2 * start + 1)) by (unfold INT_MAX; lia).
  apply heapifyDown_while_levels; [done..|].
  assert (0 < 2 ^ Z.of_nat fuel) as Hpow by (apply Z.pow_pos_nonneg; lia).
  assert (2 * 2 ^ Z.of_nat fuel ≤ 2 * (start + 1) * 2 ^ Z.of_nat fuel)
    as Hmul by nia.
  destruct (decide (0 < end_ + 1)) as [Hpos|]; [|lia].
  destruct (Z.log2_spec (end_ + 1) Hpos) as [_ Hlt].
  assert (2 ^ Z.succ (Z.log2 (end_ + 1)) ≤ 2 ^ Z.succ (Z.of_nat fuel)) as Hle.
  { apply Z.pow_le_mono_r; lia. }
  rewrite (Z.pow_succ_r 2 (Z.of_nat fuel)) in Hle by lia. lia.
Qed.

(** X1. On a heap of at most [2 ^ 30] positions, [start] and [end_] below
    [2 ^ 30], whose positions after [start] are heap ordered up to [end_],
    [heapifyDown] returns within [log2 (end_ + 1)] executions of its loop
    body, with the positions from [start] on heap ordered, the values
    permuted and nothing outside [start .. end_] touched. *)
Theorem heapifyDown_restores_heap (fuel : nat) (arr : list Z)
    (start end_ : Z) :
  0 ≤ start → start < 2 ^ 30 →
  end_ < Z.of_nat (length arr) → end_ < 2 ^ 30 →
  Z.log2 (end_ + 1) ≤ Z.of_nat fuel →
  heap_from arr (start + 1) end_ →
  ∃ arr',
    heapifyDown fuel arr start end_ = Ok arr'
    ∧ heap_from arr' start end_
    ∧ arr' ≡ₚ arr
    ∧ length arr' = length arr
    ∧ ∀ x, ¬ (start ≤ x ≤ end_) → zlookup arr' x = zlookup arr x.
Proof.
  intros Hstart Hstart30 Hend Hend30 Hfuel Hheap.
  destruct (heapifyDown_log_fuel fuel arr start end_) as [arr' Hrun];
    [done..|].
  destruct (heapifyDown_correct start end_ Hstart Hend30
              (fuel `max` length arr) arr start)
    as (arr1 & Hrun1 & [Hlen Hperm Hframe Hheap1]); [lia..| |].
  { split.
    - intros p Hp Hne. apply Hheap. lia.
    - intros g c vg vc Hg Hgi. unfold is_child in Hgi. lia. }
  unfold heapifyDown in *.
  apply (heapifyDown_while_fuel_mono _ (fuel `max` length arr)) in Hrun as Hrun';
    [|lia].
  assert (arr1 = arr') as -> by congruence.
  by exists arr'.
Qed.

Lemma heapifyDown_restores_heap_witness :
  0 ≤ 0 ∧ 0 < 2 ^ 30
  ∧ 4 < Z.of_nat (length [1; 9; 8; 7; 6]) ∧ 4 < 2 ^ 30
  ∧ Z.log2 (4 + 1) ≤ Z.of_nat 2
  ∧ heap_from [1; 9; 8; 7; 6] (0 + 1) 4
  ∧ ∃ arr',
      heapifyDown 2 [1; 9; 8; 7; 6] 0 4 = Ok arr'
      ∧ heap_from arr' 0 4
      ∧ arr' ≡ₚ [1; 9; 8; 7; 6]
      ∧ length arr' = length [1; 9; 8; 7; 6]
      ∧ ∀ x, ¬ (0 ≤ x ≤ 4) → zlookup arr' x = zlookup [1; 9; 8; 7; 6] x.
Proof.
  assert (0 ≤ 0) as H0 by lia.
  assert (0 < 2 ^ 30) as H0' by lia.
  assert (4 < Z.of_nat (length [1; 9; 8; 7; 6])) as H1 by (simpl; lia).
  assert (4 < 2 ^ 30) as H1' by lia.
  assert (Z.log2 (4 + 1) ≤ Z.of_nat 2) as H2 by (vm_compute; discriminate).
  assert (heap_from [1; 9; 8; 7; 6] (0 + 1) 4) as H3.
  { intros p Hp c vp vc [-> | ->] Hc Hvp Hvc.
    - assert (p = 1) as -> by lia. vm_compute in Hvp, Hvc. simplify_eq. lia.
    - assert (p = 1) as -> by lia. vm_compute in Hvp, Hvc. simplify_eq. lia. }
  split_and!; [exact H0|exact H0'|exact H1|exact H1'|exact H2|exact H3|].
  apply (heapifyDown_restores_heap 2 [1; 9; 8; 7; 6] 0 4
           H0 H0' H1 H1' H2 H3).
Defined.

(** X2. For [start] below [2 ^ 30] and [end_] below [INT_MAX], so that
    [2 * start + 1] and [child + 1] are within [int]: where the value at
    [start] is already [>=] its children up to [end_], or [start] has no
    child there, [heapifyDown] leaves the vector as it is. *)
Theorem heapifyDown_heap_unchanged (fuel : nat) (arr : list Z)
    (start end_ : Z) :
  0 ≤ start → start < 2 ^ 30 →
  end_ < Z.of_nat (length arr) → end_ < INT_MAX →
  (1 ≤ fuel)%nat →
  heap_at arr end_ start →
  heapifyDown fuel arr start end_ = Ok arr.
Proof.
  intros Hstart Hstart30 Hend _ Hfuel Hheap. unfold heapifyDown. cbv zeta.
  rewrite (to_int_small (2 * start + 1)) by (unfold INT_MAX; lia).
  destruct fuel as [|fuel]; [lia|]. cbn [heapifyDown_while].
  case_decide as Hchild; [|done].
  destruct (larger_child_correct end_ arr start)
    as (b & c & vc & -> & Hc & Hvc & Hpc & Hcend & _); [lia..|].
  rewrite bind_Ok. cbv zeta. rewrite <-Hc. clear b Hc.
  destruct (zlookup_is_Some arr start) as [vp Hvp]; [lia|].
  rewrite (vget_Ok _ _ _ Hvp), (vget_Ok _ _ _ Hvc), !bind_Ok.
  specialize (Hheap c vp vc Hpc Hcend Hvp Hvc).
  by rewrite decide_True by lia.
Qed.

Lemma heapifyDown_heap_unchanged_witness :
  0 ≤ 0 ∧ 0 < 2 ^ 30 ∧ 2 < Z.of_nat (length [9; 4; 9]) ∧ 2 < INT_MAX
  ∧ (1 ≤ 1)%nat
  ∧ heap_at [9; 4; 9] 2 0
  ∧ heapifyDown 1 [9; 4; 9] 0 2 = Ok [9; 4; 9].
Proof.
  assert (0 ≤ 0) as H0 by lia.
  assert (0 < 2 ^ 30) as H0' by lia.
  assert (2 < Z.of_nat (length [9; 4; 9])) as H1 by (simpl; lia).
  assert (2 < INT_MAX) as H1' by (unfold INT_MAX; lia).
  assert (1 ≤ 1)%nat as H2 by lia.
  assert (heap_at [9; 4; 9] 2 0) as H3.
  { intros c vp vc [-> | ->] Hc Hvp Hvc;
      vm_compute in Hvp, Hvc; simplify_eq; lia. }
  split_and!; [exact H0|exact H0'|exact H1|exact H1'|exact H2|exact H3|].
  apply (heapifyDown_heap_unchanged 1 [9; 4; 9] 0 2 H0 H0' H1 H1' H2 H3).
Defined.

(** ** The heap routine *)

Lemma drop_frame (arr S : list Z) (n : Z) :
  0 ≤ n →
  (∀ x, n ≤ x → zlookup arr x = zlookup S x) →
  drop (Z.to_nat n) arr = drop (Z.to_nat n) S.
Proof.
  intros Hn Hframe. apply list_eq. intros i. rewrite !lookup_drop.
  rewrite <-!zlookup_nat. apply Hframe. lia.
Qed.

(** X3. For a valid rank [n <= 2 ^ 30], Step 1 of [sort_nth_smallest_heap],
    the loop from [(n - 2) / 2] down to [0], makes a max-heap of the first
    [n] positions: they are heap ordered and hold the first [n] values of
    the input, whose maximum is at position 0, and the positions from [n]
    on are as in the input. *)
Theorem build_heap_spec (fuel : nat) (S : list Z) (n : Z) :
  1 ≤ n ≤ Z.of_nat (length S) →
  n ≤ 2 ^ 30 →
  (length S ≤ fuel)%nat →
  ∃ arr r,
    for_down ((n - 2) `quot` 2) 0
      (λ nums i, heapifyDown fuel nums i (n - 1)) S = Ok arr
    ∧ heap_from arr 0 (n - 1)
    ∧ take (Z.to_nat n) arr ≡ₚ take (Z.to_nat n) S
    ∧ drop (Z.to_nat n) arr = drop (Z.to_nat n) S
    ∧ zlookup arr 0 = Some r
    ∧ ∀ y, y ∈ take (Z.to_nat n) S → y ≤ r.
Proof.
  intros Hn Hn30 Hfuel.
  destruct (build_heap_correct fuel S n Hn Hfuel Hn30)
    as (arr & Hrun & Hbuild).
  pose proof (scan_inv_init fuel S n Hn Hfuel arr Hbuild)
    as [Hlen Hframe Hheap (R & Hperm & Hle)].
  destruct (zlookup_is_Some arr 0) as [r Hr]; [lia|].
  assert (R = []) as ->.
  { apply Permutation_length in Hperm.
    rewrite length_app, !length_take in Hperm.
    destruct R; [done|]. simpl in Hperm. lia. }
  rewrite app_nil_r in Hperm.
  exists arr, r. split_and!; try done.
  - apply drop_frame; [lia|done].
  - intros y Hy. rewrite <-Hperm in Hy.
    by apply (heap_prefix_max fuel S n Hn Hfuel arr).
Qed.

Lemma build_heap_spec_witness :
  1 ≤ 5 ≤ Z.of_nat (length test1) ∧ 5 ≤ 2 ^ 30 ∧ (length test1 ≤ 8)%nat
  ∧ ∃ arr r,
      for_down ((5 - 2) `quot` 2) 0
        (λ nums i, heapifyDown 8 nums i (5 - 1)) test1 = Ok arr
      ∧ heap_from arr 0 (5 - 1)
      ∧ take (Z.to_nat 5) arr ≡ₚ take (Z.to_nat 5) test1
      ∧ drop (Z.to_nat 5) arr = drop (Z.to_nat 5) test1
      ∧ zlookup arr 0 = Some r
      ∧ ∀ y, y ∈ take (Z.to_nat 5) test1 → y ≤ r.
Proof.
  assert (1 ≤ 5 ≤ Z.of_nat (length test1)) as H by (simpl; lia).
  assert (5 ≤ 2 ^ 30) as H1 by lia.
  assert (length test1 ≤ 8)%nat as H' by (simpl; lia).
  split; [exact H|]. split; [exact H1|]. split; [exact H'|].
  apply (build_heap_spec 8 test1 5 H H1 H').
Defined.

(** The state in which the scan of Step 2 leaves the working copy. *)
Lemma heap_run_scan fuel S n :
  Z.of_nat (length S) ≤ INT_MAX →
  1 ≤ n ≤ Z.of_nat (length S) →
  n ≤ 2 ^ 30 →
  (length S ≤ fuel)%nat →
  ∃ v arr, sort_nth_smallest_heap_run fuel S n = Ok (v, arr)
           ∧ zlookup arr 0 = Some v
           ∧ scan_inv S n (Z.of_nat (length S)) arr.
Proof.
  intros Hsize Hn Hn30 Hfuel. unfold sort_nth_smallest_heap_run.
  rewrite decide_False by (unfold invalid_rank; lia). cbv zeta.
  rewrite (to_int_small (Z.of_nat (length S))) by lia.
  destruct (build_heap_correct fuel S n Hn Hfuel Hn30)
    as (arr1 & -> & Hbuild).
  rewrite bind_Ok.
  destruct (for_up_inv (scan_inv S n) n (Z.of_nat (length S))
              (heap_scan_body fuel n) arr1) as (arr & -> & Hscan);
    [lia|by eapply scan_inv_init|by apply heap_scan_body_inv|].
  rewrite bind_Ok.
  destruct (zlookup_is_Some arr 0) as [r Hr].
  { destruct Hscan as [Hlen _ _ _]. lia. }
  rewrite (vget_Ok _ _ _ Hr), bind_Ok. by exists r, arr.
Qed.

(** X4. On a vector of at most [INT_MAX] values and a valid rank
    [n <= 2 ^ 30], [sort_nth_smallest_heap] writes only at the first [n]
    positions of its working copy: the final copy has the length of the
    input, its first [n] positions are heap ordered, the positions from [n]
    on are as in the input, and so its values are the [n] smallest of the
    input followed by the last [|S| - n] input values. *)
Theorem heap_final_copy (S : list Z) (n : Z) :
  Z.of_nat (length S) ≤ INT_MAX →
  1 ≤ n ≤ Z.of_nat (length S) →
  n ≤ 2 ^ 30 →
  ∃ v arr,
    sort_nth_smallest_heap_run (length S) S n = Ok (v, arr)
    ∧ length arr = length S
    ∧ heap_from arr 0 (n - 1)
    ∧ drop (Z.to_nat n) arr = drop (Z.to_nat n) S
    ∧ arr ≡ₚ n_smallest n S ++ drop (Z.to_nat n) S.
Proof.
  intros Hsize Hn Hn30.
  destruct (heap_run_scan (length S) S n Hsize Hn Hn30 ltac:(done))
    as (v & arr & Hrun & Hroot & Hscan).
  destruct (heap_run_correct (length S) S n Hn ltac:(done) Hn30 Hsize)
    as (v' & arr' & Hrun' & Hlen & _ & Hsel).
  assert (arr' = arr) as -> by congruence.
  destruct Hscan as [_ Hframe Hheap _].
  assert (drop (Z.to_nat n) arr = drop (Z.to_nat n) S) as Hdrop.
  { apply drop_frame; [lia|done]. }
  exists v, arr. split_and!; try done.
  destruct (selects_take_spec S n arr v' Hn Hlen Hsel) as [_ Hperm].
  by rewrite <-Hperm, <-Hdrop, take_drop.
Qed.

Lemma heap_final_copy_witness :
  Z.of_nat (length test2) ≤ INT_MAX
  ∧ 1 ≤ 5 ≤ Z.of_nat (length test2)
  ∧ 5 ≤ 2 ^ 30
  ∧ ∃ v arr,
      sort_nth_smallest_heap_run (length test2) test2 5 = Ok (v, arr)
      ∧ length arr = length test2
      ∧ heap_from arr 0 (5 - 1)
      ∧ drop (Z.to_nat 5) arr = drop (Z.to_nat 5) test2
      ∧ arr ≡ₚ n_smallest 5 test2 ++ drop (Z.to_nat 5) test2.
Proof.
  assert (Z.of_nat (length test2) ≤ INT_MAX) as H0
    by (unfold INT_MAX; simpl; lia).
  assert (1 ≤ 5 ≤ Z.of_nat (length test2)) as H by (simpl; lia).
  assert (5 ≤ 2 ^ 30) as H1 by lia.
  split; [exact H0|]. split; [exact H|]. split; [exact H1|].
  apply (heap_final_copy test2 5 H0 H H1).
Defined.

(** ** The quickselect routine *)

(** X5. On a vector of at most [INT_MAX] values and a valid rank,
    [sort_nth_smallest_quickselect] leaves its working copy a permutation
    of the input that is partitioned around position [n - 1]: that position
    holds the returned value, and every value at or before it is [<=] every
    value at or after it. *)
Theorem quickselect_final_copy (S : list Z) (n : Z) :
  Z.of_nat (length S) ≤ INT_MAX →
  1 ≤ n ≤ Z.of_nat (length S) →
  ∃ v arr,
    sort_nth_smallest_quickselect_run (length S) S n = Ok (v, arr)
    ∧ arr ≡ₚ S
    ∧ zlookup arr (n - 1) = Some v
    ∧ ∀ x y vx vy, x ≤ n - 1 → n - 1 ≤ y →
        zlookup arr x = Some vx → zlookup arr y = Some vy → vx ≤ vy.
Proof.
  intros Hsize Hn. unfold sort_nth_smallest_quickselect_run.
  rewrite decide_False by (unfold invalid_rank; lia).
  rewrite (to_int_small (Z.of_nat (length S) - 1)) by lia.
  destruct (quickSelect_correct S n (length S) S 0 (Z.of_nat (length S) - 1))
    as (v & arr & -> & [Hlen Hperm Hv Hleft Hright]);
    [by apply qs_inv_init|lia|].
  exists v, arr. split_and!; try done.
  intros x y vx vy Hx Hy Hvx Hvy. transitivity v.
  - destruct (decide (x = n - 1)) as [->|]; [by simplify_eq|].
    eapply Hleft; [|done]. lia.
  - destruct (decide (y = n - 1)) as [->|]; [by simplify_eq|].
    eapply Hright; [|done]. lia.
Qed.

Lemma quickselect_final_copy_witness :
  Z.of_nat (length test1) ≤ INT_MAX
  ∧ 1 ≤ 4 ≤ Z.of_nat (length test1)
  ∧ ∃ v arr,
      sort_nth_smallest_quickselect_run (length test1) test1 4 = Ok (v, arr)
      ∧ arr ≡ₚ test1
      ∧ zlookup arr (4 - 1) = Some v
      ∧ ∀ x y vx vy, x ≤ 4 - 1 → 4 - 1 ≤ y →
          zlookup arr x = Some vx → zlookup arr y = Some vy → vx ≤ vy.
Proof.
  assert (Z.of_nat (length test1) ≤ INT_MAX) as H0
    by (unfold INT_MAX; simpl; lia).
  assert (1 ≤ 4 ≤ Z.of_nat (length test1)) as H by (simpl; lia).
  split; [exact H0|]. split; [exact H|].
  apply (quickselect_final_copy test1 4 H0 H).
Defined.

(** ** The partition step *)

(** X6. The partition step on a segment [low .. high] of a vector keeps the
    length of the vector, permutes its values, and leaves every position
    outside the segment as it was. *)
Theorem partition_frame (arr : list Z) (low high : Z) :
  0 ≤ low → low ≤ high → high < Z.of_nat (length arr) →
  ∃ arr' p,
    partition arr low high = Ok (arr', p)
    ∧ length arr' = length arr
    ∧ arr' ≡ₚ arr
    ∧ take (Z.to_nat low) arr' = take (Z.to_nat low) arr
    ∧ drop (Z.to_nat (high + 1)) arr' = drop (Z.to_nat (high + 1)) arr
    ∧ ∀ x, ¬ (low ≤ x ≤ high) → zlookup arr' x = zlookup arr x.
Proof.
  intros Hlow Hlh Hhigh.
  destruct (zlookup_is_Some arr high) as [pivot Hpivot]; [lia|].
  destruct (partition_correct arr low high pivot)
    as (arr' & p & Hrun & [Hlen Hperm Hframe _ _ _ _]); [done..|].
  exists arr', p. split_and!; try done.
  - apply list_eq. intros i. rewrite !lookup_take.
    case_decide; [|done]. rewrite <-!zlookup_nat. apply Hframe. lia.
  - apply drop_frame; [lia|]. intros x Hx. apply Hframe. lia.
Qed.

Lemma partition_frame_witness :
  0 ≤ 2 ∧ 2 ≤ 6 ∧ 6 < Z.of_nat (length test1)
  ∧ ∃ arr' p,
      partition test1 2 6 = Ok (arr', p)
      ∧ length arr' = length test1
      ∧ arr' ≡ₚ test1
      ∧ take (Z.to_nat 2) arr' = take (Z.to_nat 2) test1
      ∧ drop (Z.to_nat (6 + 1)) arr' = drop (Z.to_nat (6 + 1)) test1
      ∧ ∀ x, ¬ (2 ≤ x ≤ 6) → zlookup arr' x = zlookup test1 x.
Proof.
  assert (0 ≤ 2) as H0 by lia.
  assert (2 ≤ 6) as H1 by lia.
  assert (6 < Z.of_nat (length test1)) as H2 by (simpl; lia).
  split_and!; [exact H0|exact H1|exact H2|].
  apply (partition_frame test1 2 6 H0 H1 H2).
Defined.

(** ** Counting values *)

Global Instance count_le_Permutation v : Proper ((≡ₚ) ==> (=)) (count_le v).
Proof. intros l1 l2 Hl. unfold count_le. by rewrite Hl. Qed.

Global Instance count_lt_Permutation v : Proper ((≡ₚ) ==> (=)) (count_lt v).
Proof. intros l1 l2 Hl. unfold count_lt. by rewrite Hl. Qed.

Lemma count_le_app v l1 l2 :
  count_le v (l1 ++ l2) = (count_le v l1 + count_le v l2)%nat.
Proof. unfold count_le. by rewrite filter_app, length_app. Qed.

Lemma count_lt_app v l1 l2 :
  count_lt v (l1 ++ l2) = (count_lt v l1 + count_lt v l2)%nat.
Proof. unfold count_lt. by rewrite filter_app, length_app. Qed.

Lemma count_le_all v l : (∀ x, x ∈ l → x ≤ v) → count_le v l = length l.
Proof.
  unfold count_le. induction l as [|a l IH]; intros Hall; [done|].
  rewrite filter_cons_True by (apply Hall; by left). simpl.
  rewrite IH; [done|]. intros x Hx. apply Hall. by right.
Qed.

Lemma count_le_none v l : (∀ x, x ∈ l → v < x) → count_le v l = 0%nat.
Proof.
  unfold count_le. induction l as [|a l IH]; intros Hall; [done|].
  rewrite filter_cons_False.
  - apply IH. intros x Hx. apply Hall. by right.
  - specialize (Hall a ltac:(by left)). lia.
Qed.

Lemma count_lt_none v l : (∀ x, x ∈ l → v ≤ x) → count_lt v l = 0%nat.
Proof.
  unfold count_lt. induction l as [|a l IH]; intros Hall; [done|].
  rewrite filter_cons_False.
  - apply IH. intros x Hx. apply Hall. by right.
  - specialize (Hall a ltac:(by left)). lia.
Qed.

Lemma count_lt_le_length v l : (count_lt v l ≤ length l)%nat.
Proof. unfold count_lt. apply length_filter. Qed.

Lemma count_lt_elem v l : v ∈ l → (count_lt v l < length l)%nat.
Proof.
  intros (k & Hk)%elem_of_Permutation. rewrite Hk. unfold count_lt.
  rewrite filter_cons_False by lia. simpl.
  pose proof (length_filter (λ x, x < v) k). lia.
Qed.

(** ** Segments, continued *)

Lemma segment_app arr low p high :
  0 ≤ low → low ≤ p + 1 → p ≤ high →
  segment arr low high = segment arr low p ++ segment arr (p + 1) high.
Proof.
  intros Hlow Hp Hhigh. unfold segment.
  replace (Z.to_nat (p + 1))
    with (Z.to_nat low + Z.to_nat (p - low + 1))%nat by lia.
  rewrite <-drop_drop, take_take_drop. f_equal. lia.
Qed.

Lemma length_segment arr low high :
  0 ≤ low → low ≤ high + 1 → high < Z.of_nat (length arr) →
  Z.of_nat (length (segment arr low high)) = high - low + 1.
Proof.
  intros. unfold segment. rewrite length_take, length_drop. lia.
Qed.

(** X7. The index that the partition step returns is fixed by the values of
    the segment alone: it is [low - 1] plus the number of values of the
    segment that are [<=] its last value, the pivot. *)
Theorem partition_index_rank (arr : list Z) (low high : Z) :
  0 ≤ low → low ≤ high → high < Z.of_nat (length arr) →
  ∃ pivot arr' p,
    zlookup arr high = Some pivot
    ∧ partition arr low high = Ok (arr', p)
    ∧ p = low - 1 + Z.of_nat (count_le pivot (segment arr low high)).
Proof.
  intros Hlow Hlh Hhigh.
  destruct (zlookup_is_Some arr high) as [pivot Hpivot]; [lia|].
  destruct (partition_correct arr low high pivot)
    as (arr' & p & Hrun & [Hlen Hperm Hframe Hrange Hp Hsmall Hlarge]);
    [done..|].
  exists pivot, arr', p. split_and!; [done..|].
  destruct (segment_Permutation arr arr' low high) as [Hseg _];
    [lia..|done|done|done|].
  rewrite <-Hseg, (segment_app arr' low p high) by lia.
  rewrite count_le_app, count_le_all, count_le_none.
  - pose proof (length_segment arr' low p). lia.
  - intros x (i & Hi & Hx)%elem_of_segment; [|lia].
    eapply Hlarge; [|done]. lia.
  - intros x (i & Hi & Hx)%elem_of_segment; [|lia].
    destruct (decide (i = p)) as [->|]; [simplify_eq; lia|].
    eapply Hsmall; [|done]. lia.
Qed.

Lemma partition_index_rank_witness :
  0 ≤ 2 ∧ 2 ≤ 6 ∧ 6 < Z.of_nat (length test1)
  ∧ ∃ pivot arr' p,
      zlookup test1 6 = Some pivot
      ∧ partition test1 2 6 = Ok (arr', p)
      ∧ p = 2 - 1 + Z.of_nat (count_le pivot (segment test1 2 6)).
Proof.
  assert (0 ≤ 2) as H0 by lia.
  assert (2 ≤ 6) as H1 by lia.
  assert (6 < Z.of_nat (length test1)) as H2 by (simpl; lia).
  split_and!; [exact H0|exact H1|exact H2|].
  apply (partition_index_rank test1 2 6 H0 H1 H2).
Defined.

(** ** The worst case of the pivot choice *)

Lemma swapped_same arr x a :
  zlookup arr x = Some a → swapped arr x x a a = arr.
Proof.
  unfold zlookup, swapped. case_decide; [|done]. intros Hx.
  by rewrite list_insert_insert_eq, list_insert_id.
Qed.

Lemma partition_pivot_is_max (arr : list Z) (low high pivot : Z) :
  0 ≤ low → low ≤ high →
  zlookup arr high = Some pivot →
  (∀ x v, low ≤ x < high → zlookup arr x = Some v → v ≤ pivot) →
  partition arr low high = Ok (arr, high).
Proof.
  intros Hlow Hlh Hpivot Hmax. apply zlookup_Some in Hpivot as Hhigh.
  unfold partition. rewrite (vget_Ok _ _ _ Hpivot), bind_Ok. cbv zeta.
  destruct (for_up_inv (λ j st, st = (arr, j - 1)) low high
              (partition_body pivot) (arr, low - 1))
    as (st & -> & ->); [done|done| |].
  { intros j st Hj ->. unfold partition_body.
    destruct (zlookup_is_Some arr j) as [aj Haj]; [lia|].
    rewrite (vget_Ok _ _ _ Haj), bind_Ok.
    rewrite decide_True by (by eapply Hmax). cbv zeta.
    replace (j - 1 + 1) with j by lia.
    rewrite (vget_Ok _ _ _ Haj), !bind_Ok, (swap_run _ _ _ _ _ _ Haj Haj).
    rewrite swapped_same by done. eexists; split; [done|].
    do 2 f_equal. lia. }
  rewrite bind_Ok. replace (high - 1 + 1) with high by lia.
  rewrite (vget_Ok _ _ _ Hpivot), !bind_Ok,
    (swap_run _ _ _ _ _ _ Hpivot Hpivot).
  by rewrite swapped_same.
Qed.

(** X8. When no value of the segment exceeds its last one, the pivot, the
    partition step returns [high] and leaves the vector as it is. *)
Theorem partition_max_pivot (arr : list Z) (low high pivot : Z) :
  0 ≤ low → low ≤ high →
  zlookup arr high = Some pivot →
  (∀ x v, low ≤ x < high → zlookup arr x = Some v → v ≤ pivot) →
  partition arr low high = Ok (arr, high).
Proof. apply partition_pivot_is_max. Qed.

Lemma partition_max_pivot_witness :
  0 ≤ 1 ∧ 1 ≤ 3
  ∧ zlookup [5; 2; 2; 7; 0] 3 = Some 7
  ∧ (∀ x v, 1 ≤ x < 3 → zlookup [5; 2; 2; 7; 0] x = Some v → v ≤ 7)
  ∧ partition [5; 2; 2; 7; 0] 1 3 = Ok ([5; 2; 2; 7; 0], 3).
Proof.
  assert (0 ≤ 1) as H0 by lia.
  assert (1 ≤ 3) as H1 by lia.
  assert (zlookup [5; 2; 2; 7; 0] 3 = Some 7) as H2 by reflexivity.
  assert (∀ x v, 1 ≤ x < 3 → zlookup [5; 2; 2; 7; 0] x = Some v → v ≤ 7)
    as H3.
  { intros x v Hx Hv.
    assert (x = 1 ∨ x = 2) as [-> | ->] by lia;
      vm_compute in Hv; simplify_eq; lia. }
  split_and!; [exact H0|exact H1|exact H2|exact H3|].
  apply (partition_max_pivot [5; 2; 2; 7; 0] 1 3 7 H0 H1 H2 H3).
Defined.

Lemma StronglySorted_lookup_le (l : list Z) (i j : nat) x y :
  StronglySorted Z.le l → (i ≤ j)%nat →
  l !! i = Some x → l !! j = Some y → x ≤ y.
Proof.
  intros Hl. revert i j. induction Hl as [|a l Hl IH Ha]; intros i j Hij.
  { by rewrite lookup_nil. }
  destruct i as [|i], j as [|j]; simpl; try lia.
  - intros ??; simplify_eq. lia.
  - intros ? Hy%list_elem_of_lookup_2; simplify_eq.
    by apply (proj1 (Forall_forall _ _) Ha).
  - apply IH. lia.
Qed.

(** On an ascending vector every partition step of the loop takes the
    maximum of the active range as its pivot, and the range shrinks by one
    position only. *)
Lemma quickSelect_ascending fuel arr high k v :
  StronglySorted Z.le arr →
  0 ≤ k - 1 ≤ high → high < Z.of_nat (length arr) →
  zlookup arr (k - 1) = Some v →
  quickSelect fuel arr 0 high k
  = if decide (high - (k - 1) + 1 ≤ Z.of_nat fuel) then Ok (v, arr)
    else Stuck OutOfFuel.
Proof.
  intros Hasc Hk Hhigh Hv. revert high Hk Hhigh.
  induction fuel as [|fuel IH]; intros high Hk Hhigh; cbn [quickSelect];
    rewrite decide_True by lia.
  { by rewrite decide_False by lia. }
  destruct (zlookup_is_Some arr high) as [pivot Hpivot]; [lia|].
  rewrite (partition_pivot_is_max arr 0 high pivot), bind_Ok;
    [|lia|lia|done|].
  - destruct (decide (high = k - 1)) as [->|Hne].
    + rewrite (vget_Ok _ _ _ Hv), bind_Ok. by rewrite decide_True by lia.
    + rewrite decide_True by lia. rewrite IH by lia.
      repeat case_decide; try done; lia.
  - intros x w Hx Hw. unfold zlookup in Hw, Hpivot.
    rewrite decide_True in Hw by lia. rewrite decide_True in Hpivot by lia.
    eapply (StronglySorted_lookup_le arr (Z.to_nat x) (Z.to_nat high));
      [done|lia|done|done].
Qed.

(** X9. On an input of at most [INT_MAX] values that is already ascending,
    [sort_nth_smallest_quickselect] makes exactly [|S| - n + 1] partition
    calls for the rank [n], one for each position from the last one down to
    [n - 1], and leaves the working copy as it is: the worst case of taking
    the last element as pivot. *)
Theorem quickselect_ascending_steps (S : list Z) (n : Z) :
  Z.of_nat (length S) ≤ INT_MAX →
  StronglySorted Z.le S →
  1 ≤ n ≤ Z.of_nat (length S) →
  ∃ v, zlookup S (n - 1) = Some v
       ∧ ∀ fuel : nat,
           sort_nth_smallest_quickselect_run fuel S n
           = if decide (Z.of_nat (length S) - n + 1 ≤ Z.of_nat fuel)
             then Ok (v, S) else Stuck OutOfFuel.
Proof.
  intros Hsize Hasc Hn.
  destruct (zlookup_is_Some S (n - 1)) as [v Hv]; [lia|].
  exists v. split; [done|]. intros fuel.
  unfold sort_nth_smallest_quickselect_run.
  rewrite decide_False by (unfold invalid_rank; lia).
  rewrite (to_int_small (Z.of_nat (length S) - 1)) by lia.
  rewrite (quickSelect_ascending fuel S _ n v) by (done || lia).
  repeat case_decide; try done; lia.
Qed.

Lemma quickselect_ascending_steps_witness :
  Z.of_nat (length test3) ≤ INT_MAX
  ∧ StronglySorted Z.le test3 ∧ 1 ≤ 3 ≤ Z.of_nat (length test3)
  ∧ ∃ v, zlookup test3 (3 - 1) = Some v
         ∧ ∀ fuel : nat,
             sort_nth_smallest_quickselect_run fuel test3 3
             = if decide (Z.of_nat (length test3) - 3 + 1 ≤ Z.of_nat fuel)
               then Ok (v, test3) else Stuck OutOfFuel.
Proof.
  assert (Z.of_nat (length test3) ≤ INT_MAX) as Hs
    by (unfold INT_MAX; simpl; lia).
  assert (StronglySorted Z.le test3) as H0.
  { unfold test3. repeat (constructor; [|repeat constructor; lia]).
    constructor. }
  assert (1 ≤ 3 ≤ Z.of_nat (length test3)) as H1 by (simpl; lia).
  split; [exact Hs|]. split; [exact H0|]. split; [exact H1|].
  apply (quickselect_ascending_steps test3 3 Hs H0 H1).
Defined.

(** ** The exit of the loop of [quickSelect] *)



(** ** What a caller gets *)

(** Both routines on a valid rank, with the selection they make. *)
Lemma both_select S n :
  Z.of_nat (length S) ≤ INT_MAX →
  1 ≤ n ≤ Z.of_nat (length S) →
  n ≤ 2 ^ 30 →
  ∃ v P, sort_nth_smallest_quickselect S n = Ok v
         ∧ sort_nth_smallest_heap S n = Ok v
         ∧ sorted S !! Z.to_nat (n - 1) = Some v
         ∧ Z.of_nat (length P) = n
         ∧ selects S P v.
Proof.
  intros Hsize Hn Hn30.
  destruct (quickselect_run_correct (length S) S n)
    as (v & arr & Hrun & Hlen & _ & Hsel); [done..|].
  destruct (heap_value S n Hsize Hn Hn30) as (v' & Hv' & Hh).
  destruct (selects_take_spec S n arr v Hn Hlen Hsel) as [Hv _].
  exists v, (take (Z.to_nat n) arr). split_and!; [|congruence|done| |done].
  - unfold sort_nth_smallest_quickselect. by rewrite Hrun.
  - rewrite length_take. lia.
Qed.

(** X11. On a vector of at most [INT_MAX] values, the value that
    [sort_nth_smallest] returns for a valid rank [n <= 2 ^ 30] is a value
    of the input with fewer than [n] input values below it and at least
    [n] input values not above it; the heap routine returns the same
    value. *)
Theorem select_rank (S : list Z) (n : Z) :
  Z.of_nat (length S) ≤ INT_MAX →
  1 ≤ n ≤ Z.of_nat (length S) →
  n ≤ 2 ^ 30 →
  ∃ v, sort_nth_smallest S n = Ok v
       ∧ sort_nth_smallest_heap S n = Ok v
       ∧ v ∈ S
       ∧ Z.of_nat (count_lt v S) < n ≤ Z.of_nat (count_le v S).
Proof.
  intros Hsize Hn Hn30.
  destruct (both_select S n Hsize Hn Hn30)
    as (v & P & Hq & Hh & _ & Hlen & R & Hperm & Hv & Hmax & Hmin).
  exists v. split_and!; [done|done|..].
  - rewrite <-Hperm. apply elem_of_app. by left.
  - rewrite <-Hperm, count_lt_app, (count_lt_none v R) by done.
    pose proof (count_lt_elem v P Hv). lia.
  - rewrite <-Hperm, count_le_app, (count_le_all v P) by done. lia.
Qed.

Lemma select_rank_witness :
  Z.of_nat (length test2) ≤ INT_MAX
  ∧ 1 ≤ 5 ≤ Z.of_nat (length test2)
  ∧ 5 ≤ 2 ^ 30
  ∧ ∃ v, sort_nth_smallest test2 5 = Ok v
         ∧ sort_nth_smallest_heap test2 5 = Ok v
         ∧ v ∈ test2
         ∧ Z.of_nat (count_lt v test2) < 5 ≤ Z.of_nat (count_le v test2).
Proof.
  assert (Z.of_nat (length test2) ≤ INT_MAX) as H0
    by (unfold INT_MAX; simpl; lia).
  assert (1 ≤ 5 ≤ Z.of_nat (length test2)) as H by (simpl; lia).
  assert (5 ≤ 2 ^ 30) as H1 by lia.
  split; [exact H0|]. split; [exact H|]. split; [exact H1|].
  apply (select_rank test2 5 H0 H H1).
Defined.



(** X13. On vectors of at most [INT_MAX] values and for a rank
    [n <= 2 ^ 30], the value returned depends on the values of the input
    only, not on their order: on two vectors that are permutations of each
    other, each routine returns the same value for the same rank. *)
Theorem select_permutation_invariant (S S' : list Z) (n : Z) :
  Z.of_nat (length S) ≤ INT_MAX →
  n ≤ 2 ^ 30 →
  S ≡ₚ S' →
  sort_nth_smallest S n = sort_nth_smallest S' n
  ∧ sort_nth_smallest_heap S n = sort_nth_smallest_heap S' n.
Proof.
  intros Hsize Hn30 Hperm. pose proof (Permutation_length Hperm) as Hlen.
  destruct (decide (invalid_rank S n)) as [Hinv|Hok].
  - assert (invalid_rank S' n) as Hinv'.
    { unfold invalid_rank in *. lia. }
    unfold sort_nth_smallest, sort_nth_smallest_quickselect,
      sort_nth_smallest_heap, sort_nth_smallest_quickselect_run,
      sort_nth_smallest_heap_run.
    by rewrite !decide_True by done.
  - unfold invalid_rank in Hok.
    destruct (both_select S n) as (v & _ & Hq & Hh & Hv & _); [lia..|].
    destruct (both_select S' n) as (v' & _ & Hq' & Hh' & Hv' & _); [lia..|].
    assert (sorted S = sorted S') as Hsorted.
    { apply sorted_unique; [apply sorted_StronglySorted|].
      by rewrite sorted_Permutation. }
    unfold sort_nth_smallest. rewrite Hq, Hq', Hh, Hh'.
    rewrite Hsorted in Hv. split; congruence.
Qed.

Lemma select_permutation_invariant_witness :
  Z.of_nat (length test3) ≤ INT_MAX
  ∧ 3 ≤ 2 ^ 30
  ∧ test3 ≡ₚ test4
  ∧ sort_nth_smallest test3 3 = sort_nth_smallest test4 3
  ∧ sort_nth_smallest_heap test3 3 = sort_nth_smallest_heap test4 3.
Proof.
  assert (Z.of_nat (length test3) ≤ INT_MAX) as H0
    by (unfold INT_MAX; simpl; lia).
  assert (3 ≤ 2 ^ 30) as H1 by lia.
  assert (test3 ≡ₚ test4) as H.
  { change test4 with (reverse test3). by rewrite reverse_Permutation. }
  split; [exact H0|]. split; [exact H1|]. split; [exact H|].
  apply (select_permutation_invariant test3 test4 3 H0 H1 H).
Defined.

(** X14. On a vector of at most [INT_MAX] values, the value returned grows
    with the rank: for two valid ranks [n <= m] the value for [n] is [<=]
    the value for [m]. *)
Theorem select_monotone (S : list Z) (n m : Z) :
  Z.of_nat (length S) ≤ INT_MAX →
  1 ≤ n → n ≤ m → m ≤ Z.of_nat (length S) →
  ∃ v w, sort_nth_smallest S n = Ok v
         ∧ sort_nth_smallest S m = Ok w
         ∧ v ≤ w.
Proof.
  intros Hsize Hn Hnm Hm.
  destruct (quickselect_value S n) as (v & Hv & Hq); [lia..|].
  destruct (quickselect_value S m) as (w & Hw & Hq'); [lia..|].
  exists v, w. split_and!; [done|done|].
  eapply (StronglySorted_lookup_le (sorted S));
    [apply sorted_StronglySorted| |done|done]. lia.
Qed.

Lemma select_monotone_witness :
  Z.of_nat (length test1) ≤ INT_MAX
  ∧ 1 ≤ 2 ∧ 2 ≤ 6 ∧ 6 ≤ Z.of_nat (length test1)
  ∧ ∃ v w, sort_nth_smallest test1 2 = Ok v
           ∧ sort_nth_smallest test1 6 = Ok w
           ∧ v ≤ w.
Proof.
  assert (Z.of_nat (length test1) ≤ INT_MAX) as Hs
    by (unfold INT_MAX; simpl; lia).
  assert (1 ≤ 2) as H0 by lia.
  assert (2 ≤ 6) as H1 by lia.
  assert (6 ≤ Z.of_nat (length test1)) as H2 by (simpl; lia).
  split_and!; [exact Hs|exact H0|exact H1|exact H2|].
  apply (select_monotone test1 2 6 Hs H0 H1 H2).
Defined.

(** X15. On a vector of at most [INT_MAX] values that is not empty, the
    rank 1 gives the minimum of the input and the rank [|S|] its
    maximum. *)
Theorem select_min_max (S : list Z) :
  Z.of_nat (length S) ≤ INT_MAX →
  S ≠ [] →
  ∃ lo hi, sort_nth_smallest S 1 = Ok lo
           ∧ sort_nth_smallest S (Z.of_nat (length S)) = Ok hi
           ∧ lo ∈ S ∧ hi ∈ S
           ∧ ∀ y, y ∈ S → lo ≤ y ≤ hi.
Proof.
  intros Hsize Hne.
  assert (1 ≤ Z.of_nat (length S)) as Hlen by (destruct S; [done|simpl; lia]).
  destruct (quickselect_value S 1) as (lo & Hlo & Hq); [lia..|].
  destruct (quickselect_value S (Z.of_nat (length S)))
    as (hi & Hhi & Hq'); [lia..|].
  exists lo, hi. split_and!; [done|done|..].
  - rewrite <-(sorted_Permutation S). by eapply list_elem_of_lookup_2.
  - rewrite <-(sorted_Permutation S). by eapply list_elem_of_lookup_2.
  - intros y Hy. rewrite <-(sorted_Permutation S) in Hy.
    apply list_elem_of_lookup_1 in Hy as [i Hi].
    pose proof (lookup_lt_Some _ _ _ Hi) as Hlt.
    rewrite length_sorted in Hlt.
    pose proof (sorted_StronglySorted S) as Hs. split.
    + eapply (StronglySorted_lookup_le (sorted S)); [done| |done|done]. lia.
    + eapply (StronglySorted_lookup_le (sorted S)); [done| |done|done]. lia.
Qed.

Lemma select_min_max_witness :
  Z.of_nat (length test1) ≤ INT_MAX
  ∧ test1 ≠ []
  ∧ ∃ lo hi, sort_nth_smallest test1 1 = Ok lo
             ∧ sort_nth_smallest test1 (Z.of_nat (length test1)) = Ok hi
             ∧ lo ∈ test1 ∧ hi ∈ test1
             ∧ ∀ y, y ∈ test1 → lo ≤ y ≤ hi.
Proof.
  assert (Z.of_nat (length test1) ≤ INT_MAX) as Hs
    by (unfold INT_MAX; simpl; lia).
  assert (test1 ≠ []) as H by done.
  split; [exact Hs|]. split; [exact H|].
  apply (select_min_max test1 Hs H).
Defined.

(** ** One step of the scan *)

(** X16. A step of the scan of [sort_nth_smallest_heap] at a position [i]
    past a heap of [n <= 2 ^ 30] positions replaces, among the values of
    the heap, its maximum by the smaller of that maximum and the value at
    [i]; the first [n] positions stay heap ordered and the positions from
    [n] on are left alone. *)
Theorem heap_scan_step (fuel : nat) (n : Z) (nums : list Z) (i : Z) :
  1 ≤ n → n ≤ 2 ^ 30 → n ≤ i → i < Z.of_nat (length nums) →
  (length nums ≤ fuel)%nat →
  heap_from nums 0 (n - 1) →
  ∃ nums' r e tl,
    heap_scan_body fuel n nums i = Ok nums'
    ∧ zlookup nums 0 = Some r
    ∧ zlookup nums i = Some e
    ∧ take (Z.to_nat n) nums = r :: tl
    ∧ take (Z.to_nat n) nums' ≡ₚ Z.min r e :: tl
    ∧ heap_from nums' 0 (n - 1)
    ∧ drop (Z.to_nat n) nums' = drop (Z.to_nat n) nums.
Proof.
  intros Hn Hn30 Hi Hlen Hfuel Hheap. unfold heap_scan_body.
  destruct (zlookup_is_Some nums i) as [e He]; [lia|].
  destruct (zlookup_is_Some nums 0) as [r Hr]; [lia|].
  rewrite (vget_Ok _ _ _ He), (vget_Ok _ _ _ Hr), !bind_Ok.
  assert (∃ tl, take (Z.to_nat n) nums = r :: tl) as [tl Htl].
  { destruct (take (Z.to_nat n) nums) as [|r' tl] eqn:Hnums.
    { apply (f_equal length) in Hnums. rewrite length_take in Hnums.
      simpl in Hnums. lia. }
    exists tl. f_equal.
    apply (f_equal (λ l, l !! 0%nat)) in Hnums.
    rewrite lookup_take_lt in Hnums by lia.
    unfold zlookup in Hr. rewrite decide_True in Hr by lia.
    change (Z.to_nat 0) with 0%nat in Hr. simpl in *. congruence. }
  destruct (decide (e < r)) as [Hlt|Hge]; last first.
  { exists nums, r, e, tl. split_and!; try done.
    by rewrite Htl, Z.min_l by lia. }
  rewrite vset_Ok, bind_Ok by lia. set (nums1 := <[Z.to_nat 0:=e]> nums).
  assert (length nums1 = length nums) as Hlen1 by apply length_insert.
  destruct (heapifyDown_correct 0 (n - 1) ltac:(done) ltac:(lia)
              fuel nums1 0)
    as (nums2 & -> & [Hlen2 Hperm2 Hframe2 Hheap2]); [lia..| |].
  { split.
    - intros p Hp Hne c vp vc Hc Hce. unfold nums1.
      rewrite !zlookup_insert by lia.
      rewrite !decide_False by (unfold is_child in Hc; lia).
      by apply (Hheap p Hp c).
    - intros g c vg vc Hg Hgi. unfold is_child in Hgi. lia. }
  destruct (segment_Permutation nums1 nums2 0 (n - 1)) as [Hseg Hdrop];
    [lia..|done|done| |].
  { intros x Hx. apply Hframe2. lia. }
  rewrite !segment_prefix in Hseg. replace (n - 1 + 1) with n in Hdrop by lia.
  exists nums2, r, e, tl. split_and!; try done.
  - rewrite Hseg. unfold nums1. rewrite take_insert_lt by lia.
    by rewrite Htl, Z.min_r by lia.
  - rewrite Hdrop. unfold nums1. by rewrite drop_insert_lt by lia.
Qed.

Lemma heap_scan_step_witness :
  1 ≤ 3 ∧ 3 ≤ 2 ^ 30 ∧ 3 ≤ 4 ∧ 4 < Z.of_nat (length [9; 4; 7; 8; 5])
  ∧ (length [9; 4; 7; 8; 5] ≤ 5)%nat
  ∧ heap_from [9; 4; 7; 8; 5] 0 (3 - 1)
  ∧ ∃ nums' r e tl,
      heap_scan_body 5 3 [9; 4; 7; 8; 5] 4 = Ok nums'
      ∧ zlookup [9; 4; 7; 8; 5] 0 = Some r
      ∧ zlookup [9; 4; 7; 8; 5] 4 = Some e
      ∧ take (Z.to_nat 3) [9; 4; 7; 8; 5] = r :: tl
      ∧ take (Z.to_nat 3) nums' ≡ₚ Z.min r e :: tl
      ∧ heap_from nums' 0 (3 - 1)
      ∧ drop (Z.to_nat 3) nums' = drop (Z.to_nat 3) [9; 4; 7; 8; 5].
Proof.
  assert (1 ≤ 3) as H0 by lia.
  assert (3 ≤ 2 ^ 30) as H0' by lia.
  assert (3 ≤ 4) as H1 by lia.
  assert (4 < Z.of_nat (length [9; 4; 7; 8; 5])) as H2 by (simpl; lia).
  assert (length [9; 4; 7; 8; 5] ≤ 5)%nat as H3 by (simpl; lia).
  assert (heap_from [9; 4; 7; 8; 5] 0 (3 - 1)) as H4.
  { intros p Hp c vp vc [-> | ->] Hc Hvp Hvc;
      (assert (p = 0) as -> by lia);
      vm_compute in Hvp, Hvc; simplify_eq; lia. }
  split_and!; [exact H0|exact H0'|exact H1|exact H2|exact H3|exact H4|].
  apply (heap_scan_step 5 3 [9; 4; 7; 8; 5] 4 H0 H0' H1 H2 H3 H4).
Defined.
